(** * Toxicity word lists: tokenizer, phrase set and threshold filter

    A shallow embedding of [toxicity_200/toxicity.py].  Python strings are
    lists of Unicode code points, the phrase set is a finite set of such
    strings, the file system is a finite map from paths to entries, and
    code that can raise returns a sum whose left side is the exception. *)

From Stdlib Require Import NArith ZArith Ascii String List.
From stdpp Require Import base gmap sets list strings.

(** ** Python strings *)

Abbreviation char := N.
Abbreviation str := (list N).

(** A Rocq string literal read as a Python string (one code point per byte,
    used for ASCII text only). *)
Definition u (s : string) : str := map N_of_ascii (list_ascii_of_string s).

Definition space : char := 0x20%N.

(** The line feed that ends a line read from a text file. *)
Definition newline : char := 0x0A%N.

(** [str.isspace] on one code point: the characters that [str.strip()] and
    [str.split()] treat as whitespace. *)
Definition isspace (c : char) : bool :=
  ((0x09 <=? c) && (c <=? 0x0D) || (0x1C <=? c) && (c <=? 0x20)
   || (c =? 0x85) || (c =? 0xA0) || (c =? 0x1680)
   || (0x2000 <=? c) && (c <=? 0x200A)
   || (c =? 0x2028) || (c =? 0x2029) || (c =? 0x202F) || (c =? 0x205F)
   || (c =? 0x3000))%N.

Definition is_ascii (c : char) : bool := (c <? 0x80)%N.

(** [s.lstrip()], [s.rstrip()] and [s.strip()]. *)
Fixpoint str_lstrip (s : str) : str :=
  match s with
  | [] => []
  | c :: s' => if isspace c then str_lstrip s' else s
  end.

Definition str_rstrip (s : str) : str := rev (str_lstrip (rev s)).

Definition str_strip (s : str) : str := str_rstrip (str_lstrip s).

(** [s.split()]: the maximal runs of characters that are not whitespace. *)
Fixpoint str_split (s : str) : list str :=
  match s with
  | [] => []
  | c :: s' =>
      if isspace c then str_split s'
      else match s' with
           | [] => [[c]]
           | d :: _ =>
               if isspace d then [c] :: str_split s'
               else match str_split s' with
                    | w :: ws => (c :: w) :: ws
                    | [] => [[c]]
                    end
           end
  end.

(** [sep.join(ws)]. *)
Fixpoint str_join (sep : str) (ws : list str) : str :=
  match ws with
  | [] => []
  | w :: ws' =>
      match ws' with
      | [] => w
      | _ :: _ => w ++ sep ++ str_join sep ws'
      end
  end.

(** [t in s] on strings. *)
Fixpoint startswith (s t : str) {struct t} : bool :=
  match t, s with
  | [], _ => true
  | _ :: _, [] => false
  | a :: t', b :: s' => (a =? b)%N && startswith s' t'
  end.

Fixpoint str_in (t s : str) : bool :=
  startswith s t ||
  match s with
  | [] => false
  | _ :: s' => str_in t s'
  end.

(** [t] occurs in [s] as a substring. *)
Definition substring (t s : str) : Prop := ∃ l r, s = l ++ t ++ r.

(** The ASCII part of [str.lower]. *)
Definition ascii_lower (c : char) : char :=
  if ((0x41 <=? c) && (c <=? 0x5A))%N then (c + 0x20)%N else c.

(** The ASCII characters of general category P or S: every printable ASCII
    character that is neither a letter, a digit nor the space. *)
Definition ascii_punct_or_symbol (c : char) : bool :=
  ((0x21 <=? c) && (c <=? 0x2F) || (0x3A <=? c) && (c <=? 0x40)
   || (0x5B <=? c) && (c <=? 0x60) || (0x7B <=? c) && (c <=? 0x7E))%N.

(** A string has exactly one padding space at each end: it is a space, a
    body, and a space, and the body neither starts nor ends with a space. *)
Definition padded (m : str) : Prop :=
  ∃ body, m = space :: body ++ [space]
          ∧ head body ≠ Some space ∧ last body ≠ Some space.

Abbreviation all_space := (Forall (λ c : char, isspace c = true)).
Abbreviation no_space := (Forall (λ c : char, isspace c = false)).

(** A word of [str.split()]: not empty, no whitespace inside. *)
Definition word (w : str) : Prop := w ≠ [] ∧ no_space w.

(** A piece between two separating spaces: not empty, no space inside. *)
Definition chunk (w : str) : Prop := w ≠ [] ∧ space ∉ w.

(** ** Files *)

(** The exceptions that opening and reading a phrase file can raise. *)
Inductive exception :=
  | FileNotFoundError
  | PermissionError
  | IsADirectoryError
  | UnicodeDecodeError
  | ValueError.


(** What a path names: a readable text file with the lines that iterating
    over it yields, a file that cannot be opened, a directory, or a file
    that can be opened and whose bytes are not valid text. *)
Inductive entry :=
  | RegularFile (lines : list str)
  | UnreadableFile
  | Directory
  | UndecodableFile.

(** A path with an embedded NUL character is refused before the file system
    is asked. *)
Definition has_nul (path : string) : bool :=
  existsb (Ascii.eqb "000"%char) (list_ascii_of_string path).

(** [open(path, "rt")] followed by iteration over the lines.  A file that is
    not valid text raises while it is read; the phrases of the lines read
    before that are lost with the object under construction, so the outcome
    is the exception alone.  A file system has no name with a NUL character,
    so the map is looked up first. *)
Definition open (fs : gmap string entry) (path : string)
    : exception + list str :=
  match fs !! path with
  | None => if has_nul path then inl ValueError else inl FileNotFoundError
  | Some (RegularFile lines) => inr lines
  | Some UnreadableFile => inl PermissionError
  | Some Directory => inl IsADirectoryError
  | Some UndecodableFile => inl UnicodeDecodeError
  end.

(** [os.path.isfile(path)]. *)
Definition isfile (fs : gmap string entry) (path : string) : bool :=
  match fs !! path with
  | Some (RegularFile _) | Some UnreadableFile | Some UndecodableFile => true
  | Some Directory | None => false
  end.

(** Exceptions are threaded through a sum: [x ← m; k] runs [k] on the value
    of [m] and hands on the exception of [m] when it raised one. *)
#[global] Instance raise_bind {E : Type} : MBind (sum E) := λ A B k m,
  match m with
  | inl e => inl e
  | inr a => k a
  end.

(** A line of a phrase file is blank when nothing is left after trimming. *)
Definition is_blank (line : str) : bool :=
  match str_strip line with
  | [] => true
  | _ :: _ => false
  end.

Definition drop_blank_lines (e : entry) : entry :=
  match e with
  | RegularFile lines => RegularFile (List.filter (λ l, negb (is_blank l)) lines)
  | UnreadableFile => UnreadableFile
  | Directory => Directory
  | UndecodableFile => UndecodableFile
  end.

(** ** Records of the module *)

Record ToxicityList := { toxicity : gset str }.

Record DatasetLine := { src : str; tgt : option str }.

(** Of [FilteringCounts] the module touches the counter [max_toxicity]. *)
Record FilteringCounts := { counts_max_toxicity : Z }.

Record ToxicityFilter := {
  max_toxicity : option Z;
  max_toxicity_difference : option Z;
  tgt_toxicity_list : option ToxicityList;
  src_toxicity_list : option ToxicityList
}.

Section Toxicity.

(** What the module takes from outside this file: the table behind
    [replace_unicode_punct], the non-ASCII part of the character class
    [\p{P}|\p{S}|\p{Han}], the non-ASCII part of [str.lower], and
    [str.format] with the keyword [lang], for a template that it accepts. *)
Variable punct_table : gmap char str.
Variable unicode_punct_symbol_han : char → bool.
Variable unicode_lower : str → str.
Variable format_lang : string → string → string.

(** Modelled from the spec: [text_normalizer.replace_unicode_punct] is not
    among the sources.  It is "a pure string to string rewrite with a fixed
    substitution table": every character that is a key of the table is
    replaced by the table's string for it, every other character stays. *)
Definition replace_unicode_punct (s : str) : str :=
  flat_map (λ c, match punct_table !! c with
                 | Some r => r
                 | None => [c]
                 end) s.

(** What the substitution table is taken to satisfy where a statement needs
    it: the characters of its replacement strings are not keys, no key is a
    whitespace character, no key is an ASCII character. *)
Definition values_fixed : Prop :=
  map_Forall (λ _ r, Forall (λ d, punct_table !! d = None) r) punct_table.

Definition whitespace_fixed : Prop :=
  map_Forall (λ c _, isspace c = false) punct_table.

Definition ascii_fixed : Prop :=
  map_Forall (λ c _, is_ascii c = false) punct_table.

(** The pattern [(\p{P}|\p{S}|\p{Han})] matches one character. *)
Definition split_match (c : char) : bool :=
  if is_ascii c then ascii_punct_or_symbol c else unicode_punct_symbol_han c.

(** [self._split.sub(r" \1 ", s)]. *)
Definition split_sub (s : str) : str :=
  flat_map (λ c, if split_match c then [space; c; space] else [c]) s.

(** A token that the pattern leaves alone when it is tokenized again: a word
    in which the pattern matches nothing, or one matched character alone. *)
Definition token (w : str) : Prop :=
  word w ∧ (Forall (λ c, split_match c = false) w
            ∨ ∃ c, w = [c] ∧ split_match c = true).

(** [s.lower()]: on ASCII text the letters A to Z move to a to z; on any
    other text the result is that of the Unicode case tables, which stay
    outside this file. *)
Definition str_lower (s : str) : str :=
  if forallb is_ascii s then map ascii_lower s else unicode_lower s.

(** What [str.lower] is taken to satisfy where a statement needs it: a space
    stays a space and separates what is lowered on its two sides, and a piece
    without a space stays a piece without a space. *)
Definition lower_keeps_spaces : Prop :=
  (∀ a b, str_lower (a ++ space :: b) = str_lower a ++ space :: str_lower b)
  ∧ (∀ a, chunk a → chunk (str_lower a)).

Definition _tokenize (s : str) : str :=
  let s := replace_unicode_punct (str_strip s) in
  let tok := split_sub s in
  let tok := str_join [space] (str_split tok) in
  [space] ++ tok ++ [space].

(** [sum(1 for t in self.toxicity if t in text)]. *)
Definition count_in (self : ToxicityList) (text : str) : nat :=
  foldr (λ t n, if str_in t text then 1 + n else n) 0 (elements (toxicity self)).

Definition toxicity_count (self : ToxicityList) (s : str) : nat :=
  let tokenized := _tokenize (replace_unicode_punct s) in
  let regular := count_in self tokenized in
  let lowercased := count_in self (str_lower tokenized) in
  Nat.max regular lowercased.

(** The body of the loop over the lines of one file. *)
Definition add_line (toxicity : gset str) (line : str) : gset str :=
  let line := str_strip line in
  let tokenized := _tokenize line in
  {[ str_lower tokenized ]} ∪ ({[ tokenized ]} ∪ toxicity).

(** What one line of a phrase file puts into the set. *)
Definition line_phrase (line phrase : str) : Prop :=
  phrase = _tokenize (str_strip line)
  ∨ phrase = str_lower (_tokenize (str_strip line)).

Fixpoint load_paths (fs : gmap string entry) (toxicity : gset str)
    (word_list_paths : list string) : exception + gset str :=
  match word_list_paths with
  | [] => inr toxicity
  | path :: rest =>
      fin ← open fs path;
      load_paths fs (fold_left add_line fin toxicity) rest
  end.

(** [ToxicityList.__init__]. *)
Definition ToxicityList_init (fs : gmap string entry)
    (word_list_paths : list string) : exception + ToxicityList :=
  toxicity ← load_paths fs ∅ word_list_paths;
  inr {| toxicity := toxicity |}.

(** [if paths: lst = ToxicityList(paths)], the list staying [None]
    otherwise. *)
Definition list_of_paths (fs : gmap string entry) (paths : list string)
    : exception + option ToxicityList :=
  match paths with
  | [] => inr None
  | _ :: _ => l ← ToxicityList_init fs paths; inr (Some l)
  end.

(** [ToxicityFilter.__init__]. *)
Definition ToxicityFilter_init (fs : gmap string entry)
    (twl_path_template : string) (eng_porn_twl_path : option string)
    (max_toxicity max_toxicity_difference : option Z)
    (src_lang : string) (tgt_lang : option string)
    : exception + ToxicityFilter :=
  let src_paths := [] in
  let src_twl_path := format_lang twl_path_template src_lang in
  let src_paths :=
    if isfile fs src_twl_path then src_paths ++ [src_twl_path] else src_paths in
  let src_paths :=
    match eng_porn_twl_path with
    | Some p => src_paths ++ [p]
    | None => src_paths
    end in
  src_toxicity_list ← list_of_paths fs src_paths;
  let tgt_paths := [] in
  let tgt_paths :=
    match tgt_lang with
    | Some lang =>
        let tgt_twl_path := format_lang twl_path_template lang in
        if isfile fs tgt_twl_path then tgt_paths ++ [tgt_twl_path] else tgt_paths
    | None => tgt_paths
    end in
  let tgt_paths :=
    match eng_porn_twl_path with
    | Some p => tgt_paths ++ [p]
    | None => tgt_paths
    end in
  tgt_toxicity_list ← list_of_paths fs tgt_paths;
  inr {| max_toxicity := max_toxicity;
         max_toxicity_difference := max_toxicity_difference;
         tgt_toxicity_list := tgt_toxicity_list;
         src_toxicity_list := src_toxicity_list |}.

(** [ToxicityFilter.filter_line] up to its last complete statement.  The
    listing stops inside the assignment that follows the second increment of
    the counter, so what is returned here is the local [is_src_toxic] and the
    counters object as the two checks leave them. *)
Definition filter_line (self : ToxicityFilter) (line : DatasetLine)
    (counts : FilteringCounts) : bool * FilteringCounts :=
  let is_src_toxic := false in
  let '(is_src_toxic, counts) :=
    match src_toxicity_list self with
    | Some l =>
        let src_toxicity := toxicity_count l (src line) in
        match max_toxicity self with
        | Some m =>
            if (Z.of_nat src_toxicity >? m)%Z
            then (true,
                  {| counts_max_toxicity := counts_max_toxicity counts + 1 |})
            else (is_src_toxic, counts)
        | None => (is_src_toxic, counts)
        end
    | None => (is_src_toxic, counts)
    end in
  match tgt line, tgt_toxicity_list self with
  | Some t, Some l =>
      let tgt_toxicity := toxicity_count l t in
      match max_toxicity self with
      | Some m =>
          if (Z.of_nat tgt_toxicity >? m)%Z
          then (is_src_toxic,
                {| counts_max_toxicity := counts_max_toxicity counts + 1 |})
          else (is_src_toxic, counts)
      | None => (is_src_toxic, counts)
      end
  | _, _ => (is_src_toxic, counts)
  end.

End Toxicity.

(** ** One choice of the outside parts, to run the definitions *)

Definition sample_table : gmap char str :=
  list_to_map
    [ (0x201C%N, [0x22%N]); (0x201D%N, [0x22%N]); (0x2019%N, u "'");
      (0x2014%N, u " - "); (0xFF0C%N, u ","); (0xFF01%N, u "!");
      (0xFF1F%N, u "?"); (0x2026%N, u "...") ].

Definition sample_class (c : char) : bool :=
  ((0x2010 <=? c) && (c <=? 0x2027) || (0x3001 <=? c) && (c <=? 0x3003)
   || (0x4E00 <=? c) && (c <=? 0x9FFF))%N.

Definition sample_lower_char (c : char) : char :=
  if ((0x391 <=? c) && (c <=? 0x3A9))%N then (c + 0x20)%N else ascii_lower c.

Definition sample_lower (s : str) : str := map sample_lower_char s.

Definition sample_format (template lang : string) : string :=
  (template +:+ lang)%string.

(** A phrase file with a blank line between two phrases. *)
Definition sample_fs : gmap string entry :=
  {[ "toxic.txt"%string :=
       RegularFile [u "slur1" ++ [newline]; [newline]; u "Damn" ++ [newline]] ]}.

Definition sample_list : ToxicityList :=
  {| toxicity := {[ u " slur1 " ]} ∪ {[ [space; space] ]}
                 ∪ {[ u " Damn " ]} ∪ {[ u " damn " ]} |}.

Definition sample_filter : ToxicityFilter :=
  {| max_toxicity := Some 0%Z;
     max_toxicity_difference := None;
     tgt_toxicity_list := Some sample_list;
     src_toxicity_list := Some sample_list |}.

(** A file system with a phrase file for one language, an auxiliary list and
    a file that exists and cannot be read. *)
Definition sample_fs2 : gmap string entry :=
  {[ "twl-eng"%string := RegularFile [u "slur1" ++ [newline]];
     "aux.txt"%string := RegularFile [u "Damn" ++ [newline]];
     "twl-fra"%string := UnreadableFile ]}.

Definition sample_list2 : ToxicityList :=
  {| toxicity := {[ u " slur1 " ]} ∪ {[ u " Damn " ]} ∪ {[ u " damn " ]} |}.

Definition sample_filter2 : ToxicityFilter :=
  {| max_toxicity := Some 1%Z;
     max_toxicity_difference := Some 2%Z;
     tgt_toxicity_list := Some sample_list2;
     src_toxicity_list := Some sample_list2 |}.

(** A left double quotation mark, [Hi], an em dash, [you], a right double
    quotation mark and a fullwidth exclamation mark. *)
Definition fancy_text : str :=
  [0x201C%N] ++ u "Hi" ++ [0x2014%N] ++ u "you" ++ [0x201D%N; 0xFF01%N].

(** ** Substring search *)

Lemma startswith_spec (s t : str) : startswith s t = true ↔ ∃ r, s = t ++ r.
Proof.
  revert s. induction t as [|a t IH]; intros s; simpl.
  - split; [intros _; by exists s | done].
  - destruct s as [|b s].
    + split; [done | intros [r Hr]; discriminate Hr].
    + rewrite andb_true_iff, N.eqb_eq, IH. split.
      * intros [-> [r ->]]. by exists r.
      * intros [r Hr]. injection Hr as -> ->. eauto.
Qed.

Lemma str_in_spec (t s : str) : str_in t s = true ↔ substring t s.
Proof.
  unfold substring. induction s as [|c s IH]; simpl.
  - rewrite orb_false_r, startswith_spec. split.
    + intros [r Hr]. by exists [], r.
    + intros (l & r & Hlr). symmetry in Hlr.
      apply app_eq_nil in Hlr as [-> Ht]. apply app_eq_nil in Ht as [-> ->].
      by exists [].
  - rewrite orb_true_iff, startswith_spec, IH. split.
    + intros [[r Hr] | (l & r & Hlr)].
      * by exists [], r.
      * exists (c :: l), r. by rewrite Hlr.
    + intros (l & r & Hlr). destruct l as [|c' l].
      * left. by exists r.
      * right. injection Hlr as -> ->. eauto.
Qed.

#[global] Instance substring_dec : RelDecision substring.
Proof.
  intros t s. destruct (str_in t s) eqn:E.
  - left. by apply str_in_spec.
  - right. intros H. apply str_in_spec in H. congruence.
Defined.

(** ** Whitespace, [split] and [join] *)


Lemma isspace_space : isspace space = true.
Proof. reflexivity. Qed.

Lemma no_space_not_space (w : str) : no_space w → space ∉ w.
Proof.
  intros Hw Hin. rewrite Forall_forall in Hw.
  specialize (Hw _ Hin). by rewrite isspace_space in Hw.
Qed.

Lemma lstrip_decomp (s : str) : ∃ ws, all_space ws ∧ s = ws ++ str_lstrip s.
Proof.
  induction s as [|c s (ws & Hws & IH)]; simpl.
  - by exists [].
  - destruct (isspace c) eqn:E.
    + exists (c :: ws). split; [by constructor |]. simpl. by rewrite <- IH.
    + by exists [].
Qed.

Lemma strip_decomp (s : str) :
  ∃ l r, all_space l ∧ all_space r ∧ s = l ++ str_strip s ++ r.
Proof.
  destruct (lstrip_decomp s) as (l & Hl & Hs).
  destruct (lstrip_decomp (rev (str_lstrip s))) as (r & Hr & Hrs).
  exists l, (rev r). split; [done |]. split.
  - by apply Forall_rev.
  - unfold str_strip, str_rstrip. rewrite <- rev_app_distr, <- Hrs, rev_involutive.
    exact Hs.
Qed.

Lemma split_all_space (ws : str) : all_space ws → str_split ws = [].
Proof. induction 1 as [|c ws Hc _ IH]; simpl; [done | by rewrite Hc]. Qed.

Lemma split_cons_no_space (c : char) (s : str) :
  isspace c = false → str_split (c :: s) ≠ [].
Proof.
  intros Hc. simpl. rewrite Hc. destruct s as [|d s]; [done |].
  destruct (isspace d); [done |]. by destruct (str_split (d :: s)).
Qed.

Lemma split_app_space (a b : str) (c : char) :
  isspace c = true → str_split (a ++ c :: b) = str_split a ++ str_split b.
Proof.
  intros Hc. induction a as [|x a IH].
  - simpl. by rewrite Hc.
  - change ((x :: a) ++ c :: b) with (x :: (a ++ c :: b)).
    simpl str_split at 1 2. destruct (isspace x) eqn:Hx; [exact IH |].
    destruct a as [|d a].
    + simpl. by rewrite Hc.
    + change ((d :: a) ++ c :: b) with (d :: (a ++ c :: b)) in *.
      cbv iota beta. destruct (isspace d) eqn:Hd.
      * by rewrite IH.
      * rewrite IH. pose proof (split_cons_no_space d a Hd) as Hne.
        by destruct (str_split (d :: a)).
Qed.

Lemma split_app_all_space_l (ws s : str) :
  all_space ws → str_split (ws ++ s) = str_split s.
Proof. induction 1 as [|c ws Hc _ IH]; simpl; [done | by rewrite Hc]. Qed.

Lemma split_app_all_space_r (s ws : str) :
  all_space ws → str_split (s ++ ws) = str_split s.
Proof.
  intros Hws. destruct Hws as [|c ws Hc Hws].
  - by rewrite app_nil_r.
  - rewrite split_app_space by done. rewrite (split_all_space ws) by done.
    apply app_nil_r.
Qed.

Lemma split_word (w : str) : word w → str_split w = [w].
Proof.
  intros [Hne Hw]. induction Hw as [|c w Hc Hw IH]; [done |].
  simpl. rewrite Hc. destruct w as [|d w]; [done |].
  inversion Hw as [|? ? Hd _]; subst. rewrite Hd.
  by rewrite IH.
Qed.

Lemma split_words (s : str) : Forall word (str_split s).
Proof.
  induction s as [|c s IH]; simpl; [constructor |].
  destruct (isspace c) eqn:Hc; [done |].
  assert (word [c]) by (split; [done | by repeat constructor]).
  destruct s as [|d s]; [by repeat constructor |].
  destruct (isspace d) eqn:Hd; [by constructor |].
  destruct (str_split (d :: s)) as [|w ws]; [by repeat constructor |].
  inversion IH as [|? ? [_ Hw] Hws]; subst. constructor; [|done].
  split; [done | by constructor].
Qed.

Lemma join_cons (w : str) (ws : list str) :
  ws ≠ [] → str_join [space] (w :: ws) = w ++ space :: str_join [space] ws.
Proof. by destruct ws. Qed.

Lemma join_singleton (sep w : str) : str_join sep [w] = w.
Proof. reflexivity. Qed.

#[local] Arguments str_join : simpl never.

Lemma split_join (ws : list str) :
  Forall word ws → str_split (str_join [space] ws) = ws.
Proof.
  induction 1 as [|w ws Hw Hws IH]; [done |].
  destruct ws as [|w2 ws]; [by apply split_word |].
  rewrite join_cons by done.
  rewrite split_app_space by apply isspace_space.
  by rewrite IH, split_word.
Qed.

Lemma word_chunk (w : str) : word w → chunk w.
Proof. intros [Hne Hw]. split; [done | by apply no_space_not_space]. Qed.

Lemma words_chunks (ws : list str) : Forall word ws → Forall chunk ws.
Proof. intros H. eapply Forall_impl; [exact H | apply word_chunk]. Qed.

Lemma join_not_nil (sep w : str) (ws : list str) :
  w ≠ [] → str_join sep (w :: ws) ≠ [].
Proof. intros Hw. destruct ws; simpl; [done |]. by destruct w. Qed.

Lemma join_head (ws : list str) :
  Forall chunk ws → head (str_join [space] ws) ≠ Some space.
Proof.
  intros Hws. destruct Hws as [|w ws [Hne Hw] _]; [done |].
  destruct w as [|c w]; [done |].
  assert (head (str_join [space] ((c :: w) :: ws)) = Some c) as ->
    by by destruct ws.
  intros [= ->]. apply Hw. by left.
Qed.

Lemma join_last (ws : list str) :
  Forall chunk ws → last (str_join [space] ws) ≠ Some space.
Proof.
  induction 1 as [|w ws [Hne Hw] Hws IH]; [done |].
  destruct ws as [|w2 ws].
  - rewrite join_singleton. intros Hl. apply last_Some in Hl as [l' ->].
    apply Hw. apply elem_of_app. right. by left.
  - rewrite join_cons by done. rewrite last_app, last_cons.
    destruct (last (str_join [space] (w2 :: ws))) eqn:E; [done |].
    apply last_None in E. inversion Hws as [|? ? [Hne2 _] _]; subst.
    by apply join_not_nil in E.
Qed.

(** Where two adjacent spaces can sit in a string. *)
Lemma double_space_cons (c : char) (y : str) :
  substring [space; space] (c :: y) →
  (c = space ∧ head y = Some space) ∨ substring [space; space] y.
Proof.
  intros (l & r & Heq). destruct l as [|c' l].
  - left. by injection Heq as -> ->.
  - right. injection Heq as -> ->. by exists l, r.
Qed.

Lemma double_space_chunk (w y : str) :
  space ∉ w → substring [space; space] (w ++ y) → substring [space; space] y.
Proof.
  induction w as [|c w IH]; intros Hw Hsub; [done |].
  apply double_space_cons in Hsub as [[-> _] | Hsub].
  - exfalso. apply Hw. by left.
  - apply IH; [|done]. intros Hin. apply Hw. by right.
Qed.

Lemma no_double_space_join_end (ws : list str) :
  Forall chunk ws → ws ≠ [] →
  ¬ substring [space; space] (str_join [space] ws ++ [space]).
Proof.
  induction 1 as [|w ws [Hne Hw] Hws IH]; intros Hnil; [done |].
  destruct ws as [|w2 ws].
  - rewrite join_singleton. intros Hsub.
    apply double_space_chunk in Hsub; [|done].
    destruct Hsub as (l & r & Heq). apply (f_equal length) in Heq.
    rewrite !length_app in Heq. simpl in Heq. lia.
  - rewrite join_cons by done. rewrite <- !app_assoc. intros Hsub.
    apply double_space_chunk in Hsub; [|done].
    change ((space :: ?x) ++ ?y) with (space :: (x ++ y)) in Hsub.
    apply double_space_cons in Hsub as [[_ Hh] | Hsub].
    + rewrite head_app in Hh.
      pose proof (join_head (w2 :: ws) Hws) as Hj.
      destruct (head (str_join [space] (w2 :: ws))) eqn:E; [congruence |].
      apply head_None in E. inversion Hws as [|? ? [Hne2 _] _]; subst.
      by apply join_not_nil in E.
    + by apply IH in Hsub.
Qed.

(** A padded string with at least one chunk has no two adjacent spaces. *)
Lemma no_double_space_join (ws : list str) :
  Forall chunk ws → ws ≠ [] →
  ¬ substring [space; space] ([space] ++ str_join [space] ws ++ [space]).
Proof.
  intros Hws Hne Hsub. simpl in Hsub.
  apply double_space_cons in Hsub as [[_ Hh] | Hsub].
  - rewrite head_app in Hh.
    pose proof (join_head ws Hws) as Hj.
    destruct (head (str_join [space] ws)) eqn:E; [congruence |].
    apply head_None in E. destruct Hws as [|w ws' [Hw _] _]; [done |].
    by apply join_not_nil in E.
  - by apply no_double_space_join_end in Hsub.
Qed.

Lemma join_padded (ws : list str) :
  Forall chunk ws → padded ([space] ++ str_join [space] ws ++ [space]).
Proof.
  intros Hws. exists (str_join [space] ws).
  split; [done |]. split; [by apply join_head | by apply join_last].
Qed.

Lemma lstrip_all_space (ws : str) : all_space ws → str_lstrip ws = [].
Proof. induction 1 as [|c ws Hc _ IH]; simpl; [done | by rewrite Hc]. Qed.

Lemma strip_all_space (ws : str) : all_space ws → str_strip ws = [].
Proof.
  intros Hws. unfold str_strip, str_rstrip.
  rewrite (lstrip_all_space ws) by done. reflexivity.
Qed.

Lemma filter_isspace_all_space (s : str) : all_space (List.filter isspace s).
Proof.
  induction s as [|c s IH]; simpl; [constructor |].
  destruct (isspace c) eqn:Hc; [by constructor | done].
Qed.

Lemma split_elem (s w : str) (c : char) : w ∈ str_split s → c ∈ w → c ∈ s.
Proof.
  revert w. induction s as [|x s IH]; intros w Hw Hc; simpl in Hw.
  - by apply elem_of_nil in Hw.
  - destruct (isspace x); [right; eauto |].
    destruct s as [|d s].
    + apply list_elem_of_singleton in Hw as ->. done.
    + destruct (isspace d).
      * apply elem_of_cons in Hw as [-> | Hw]; [|right; eauto].
        apply list_elem_of_singleton in Hc as ->. by left.
      * destruct (str_split (d :: s)) as [|w' ws] eqn:E.
        -- apply list_elem_of_singleton in Hw as ->.
           apply list_elem_of_singleton in Hc as ->. by left.
        -- apply elem_of_cons in Hw as [-> | Hw].
           ++ apply elem_of_cons in Hc as [-> | Hc]; [by left | right].
              apply (IH w'); [by left | done].
           ++ right. apply (IH w); [by right | done].
Qed.

Lemma join_elem (ws : list str) (c : char) :
  c ∈ str_join [space] ws → c = space ∨ ∃ w, w ∈ ws ∧ c ∈ w.
Proof.
  induction ws as [|w ws IH]; intros Hc.
  - by apply elem_of_nil in Hc.
  - destruct ws as [|w2 ws].
    + rewrite join_singleton in Hc. right. exists w. split; [by left | done].
    + rewrite join_cons in Hc by done.
      apply elem_of_app in Hc as [Hc | Hc].
      * right. exists w. split; [by left | done].
      * apply elem_of_cons in Hc as [-> | Hc]; [by left |].
        destruct (IH Hc) as [-> | (w' & Hw' & Hc')]; [by left | right].
        exists w'. split; [by right | done].
Qed.

(** ** The tokenizer *)

Section Tokenizer.

Context (punct_table : gmap char str).
Context (unicode_punct_symbol_han : char → bool).
Context (unicode_lower : str → str).

#[local] Abbreviation rup := (replace_unicode_punct punct_table).
#[local] Abbreviation split_match := (split_match unicode_punct_symbol_han).
#[local] Abbreviation split_sub := (split_sub unicode_punct_symbol_han).
#[local] Abbreviation tokenize := (_tokenize punct_table unicode_punct_symbol_han).
#[local] Abbreviation lower := (str_lower unicode_lower).
#[local] Abbreviation token := (token unicode_punct_symbol_han).
#[local] Abbreviation tokens s := (str_split (split_sub s)).

Lemma tokenize_unfold (s : str) :
  tokenize s = [space] ++ str_join [space] (tokens (rup (str_strip s))) ++ [space].
Proof. reflexivity. Qed.

Lemma rup_app (a b : str) : rup (a ++ b) = rup a ++ rup b.
Proof. apply flat_map_app. Qed.

Lemma split_sub_app (a b : str) : split_sub (a ++ b) = split_sub a ++ split_sub b.
Proof. apply flat_map_app. Qed.

Lemma rup_not_keys (s : str) :
  Forall (λ d, punct_table !! d = None) s → rup s = s.
Proof.
  induction 1 as [|c s Hc _ IH]; [done |].
  unfold replace_unicode_punct in *. simpl. rewrite Hc. simpl. by rewrite IH.
Qed.

Lemma rup_all_space (ws : str) :
  whitespace_fixed punct_table → all_space ws → rup ws = ws.
Proof.
  intros Hfix Hws. apply rup_not_keys.
  eapply Forall_impl; [exact Hws |]. intros c Hc. simpl in Hc.
  destruct (punct_table !! c) as [r|] eqn:E; [|done].
  apply (map_Forall_lookup_1 _ _ _ _ Hfix) in E. congruence.
Qed.

Lemma rup_values (s : str) :
  values_fixed punct_table → Forall (λ d, punct_table !! d = None) (rup s).
Proof.
  intros Hfix. induction s as [|c s IH]; [constructor |].
  unfold replace_unicode_punct in *. simpl. apply Forall_app. split; [|done].
  destruct (punct_table !! c) as [r|] eqn:E.
  - apply (map_Forall_lookup_1 _ _ _ _ Hfix) in E. exact E.
  - by repeat constructor.
Qed.

Lemma rup_idem (s : str) : values_fixed punct_table → rup (rup s) = rup s.
Proof. intros Hfix. by apply rup_not_keys, rup_values. Qed.

Lemma split_sub_all_space (ws : str) : all_space ws → all_space (split_sub ws).
Proof.
  induction 1 as [|c ws Hc _ IH]; [constructor |].
  unfold split_sub in *. simpl. apply Forall_app. split; [|done].
  destruct (split_match c); by repeat constructor.
Qed.

Lemma split_sub_elem (s : str) (c : char) : c ∈ split_sub s → c = space ∨ c ∈ s.
Proof.
  induction s as [|x s IH]; intros Hc; [by apply elem_of_nil in Hc |].
  unfold split_sub in *. simpl in Hc. apply elem_of_app in Hc as [Hc | Hc].
  - destruct (split_match x).
    + repeat (apply elem_of_cons in Hc as [-> | Hc]); try (by left).
      * right. by left.
      * by apply elem_of_nil in Hc.
    + apply list_elem_of_singleton in Hc as ->. right. by left.
  - destruct (IH Hc) as [-> | Hin]; [by left | right; by right].
Qed.

(** Trimming the input does not change its tokens. *)
Lemma tokens_strip (s : str) :
  whitespace_fixed punct_table →
  tokens (rup (str_strip s)) = tokens (rup s).
Proof.
  intros Hfix. destruct (strip_decomp s) as (l & r & Hl & Hr & Hs).
  rewrite Hs at 2. rewrite !rup_app, !split_sub_app.
  rewrite (rup_all_space l), (rup_all_space r) by done.
  rewrite split_app_all_space_l by by apply split_sub_all_space.
  by rewrite split_app_all_space_r by by apply split_sub_all_space.
Qed.

Lemma tokens_pad (s : str) : tokens ([space] ++ s ++ [space]) = tokens s.
Proof.
  rewrite !split_sub_app.
  rewrite split_app_all_space_l by by repeat constructor.
  by rewrite split_app_all_space_r by by repeat constructor.
Qed.

Lemma tokens_from (p y : str) :
  no_space p → Forall (λ c, split_match c = false) p →
  Forall token (str_split (p ++ split_sub y)).
Proof.
  revert p. induction y as [|c y IH]; intros p Hp Hq.
  - rewrite app_nil_r. destruct p as [|x p]; [constructor |].
    rewrite split_word by done. apply Forall_singleton. split; [done | by left].
  - assert (Forall token (str_split p)) as Hsp.
    { destruct p as [|x p]; [constructor |].
      rewrite split_word by done. apply Forall_singleton.
      split; [done | by left]. }
    unfold split_sub in *. simpl. destruct (split_match c) eqn:Hm.
    + simpl. rewrite split_app_space by apply isspace_space.
      apply Forall_app. split; [done |].
      change (c :: space :: ?r) with ([c] ++ space :: r).
      rewrite split_app_space by apply isspace_space.
      apply Forall_app. split; [| by apply (IH [])].
      destruct (isspace c) eqn:Hc.
      * simpl. rewrite Hc. constructor.
      * assert (word [c]) as Hwc by (split; [done | by repeat constructor]).
        rewrite split_word by done. apply Forall_singleton.
        split; [done |]. right. by exists c.
    + simpl. destruct (isspace c) eqn:Hc.
      * rewrite split_app_space by done.
        apply Forall_app. split; [done | by apply (IH [])].
      * change (p ++ c :: ?r) with (p ++ [c] ++ r). rewrite app_assoc.
        apply IH; apply Forall_app; split; try done; by repeat constructor.
Qed.

Lemma tokens_are_tokens (y : str) : Forall token (tokens y).
Proof. by apply (tokens_from []). Qed.

Lemma tokens_token (w : str) : token w → tokens w = [w].
Proof.
  intros [Hw [Hfree | (c & -> & Hm)]].
  - assert (split_sub w = w) as ->; [|by apply split_word].
    clear Hw. induction Hfree as [|c w Hc _ IH]; [done |].
    unfold split_sub in *. simpl. rewrite Hc. simpl. by rewrite IH.
  - unfold split_sub. simpl. rewrite Hm. simpl.
    destruct Hw as [_ Hc]. inversion Hc as [|? ? Hc' _]; subst.
    by rewrite Hc'.
Qed.

Lemma tokens_join (ws : list str) :
  Forall token ws → tokens (str_join [space] ws) = ws.
Proof.
  induction 1 as [|w ws Hw Hws IH]; [done |].
  destruct ws as [|w2 ws].
  - rewrite join_singleton. by apply tokens_token.
  - rewrite join_cons by done.
    change (w ++ space :: ?r) with (w ++ [space] ++ r).
    rewrite !split_sub_app.
    change (split_sub [space]) with [space]. simpl app at 2.
    rewrite split_app_space by apply isspace_space.
    by rewrite IH, tokens_token.
Qed.

Lemma tokens_words (y : str) : Forall word (tokens y).
Proof. apply split_words. Qed.

Lemma tokenize_not_keys (s : str) :
  values_fixed punct_table → whitespace_fixed punct_table →
  Forall (λ d, punct_table !! d = None) (tokenize s).
Proof.
  intros Hv Hw. apply Forall_forall. intros c Hc.
  assert (punct_table !! space = None) as Hsp.
  { destruct (punct_table !! space) eqn:E; [|done].
    by apply (map_Forall_lookup_1 _ _ _ _ Hw) in E. }
  rewrite tokenize_unfold in Hc.
  apply elem_of_app in Hc as [Hc | Hc];
    [apply list_elem_of_singleton in Hc as ->; exact Hsp |].
  apply elem_of_app in Hc as [Hc | Hc];
    [| apply list_elem_of_singleton in Hc as ->; exact Hsp].
  apply join_elem in Hc as [-> | (w & Hin & Hc)]; [exact Hsp |].
  apply (split_elem _ _ _ Hin) in Hc.
  apply split_sub_elem in Hc as [-> | Hc]; [exact Hsp |].
  pose proof (rup_values (str_strip s) Hv) as Hall.
  rewrite Forall_forall in Hall. by apply Hall.
Qed.

Lemma tokenize_padded (s : str) : padded (tokenize s).
Proof.
  rewrite tokenize_unfold. apply join_padded, words_chunks, tokens_words.
Qed.

Lemma tokenize_all_space (ws : str) :
  all_space ws → tokenize ws = [space; space].
Proof. intros Hws. rewrite tokenize_unfold. by rewrite strip_all_space. Qed.

Lemma tokenize_no_tokens (s : str) :
  tokenize s ≠ [space; space] → tokens (rup (str_strip s)) ≠ [].
Proof. intros Hne Hnil. apply Hne. rewrite tokenize_unfold. by rewrite Hnil. Qed.

End Tokenizer.

(** ** Counting and loading *)

Lemma count_foldr (text : str) (l : list str) :
  foldr (λ t n, if str_in t text then 1 + n else n) 0 l
  = length (filter (λ t, substring t text) l).
Proof.
  induction l as [|t l IH]; [done |].
  rewrite filter_cons. simpl in IH |- *. rewrite IH.
  destruct (str_in t text) eqn:E; case_decide as Hsub; simpl; try done.
  - exfalso. apply Hsub. by apply str_in_spec.
  - apply str_in_spec in Hsub. congruence.
Qed.

Lemma length_filter_elements (P : str → Prop) `{!∀ t, Decision (P t)}
    (X : gset str) :
  length (filter P (elements X)) = size (filter P X).
Proof.
  unfold size, set_size. simpl. apply Permutation_length, NoDup_Permutation.
  - apply NoDup_filter, NoDup_elements.
  - apply NoDup_elements.
  - intros t. rewrite list_elem_of_filter, !elem_of_elements, elem_of_filter.
    done.
Qed.

Lemma filter_without (P : str → Prop) `{!∀ t, Decision (P t)}
    (X Y : gset str) (extra : str) :
  ¬ P extra → Y ⊆ X → (∀ t, t ∈ X → t ∈ Y ∨ t = extra) →
  filter P X = filter P Y.
Proof.
  intros Hextra Hsub Hback. apply set_eq. intros t.
  rewrite !elem_of_filter. split.
  - intros [Ht Hin]. split; [done |].
    destruct (Hback _ Hin) as [? | ->]; [done | contradiction].
  - intros [Ht Hin]. split; [done | by apply Hsub].
Qed.

Section Matcher.

Context (punct_table : gmap char str).
Context (unicode_punct_symbol_han : char → bool).
Context (unicode_lower : str → str).

#[local] Abbreviation rup := (replace_unicode_punct punct_table).
#[local] Abbreviation tokenize := (_tokenize punct_table unicode_punct_symbol_han).
#[local] Abbreviation lower := (str_lower unicode_lower).
#[local] Abbreviation tokens s := (str_split (split_sub unicode_punct_symbol_han s)).
#[local] Abbreviation toxicity_count :=
  (toxicity_count punct_table unicode_punct_symbol_han unicode_lower).
#[local] Abbreviation add_line :=
  (add_line punct_table unicode_punct_symbol_han unicode_lower).
#[local] Abbreviation load_paths :=
  (load_paths punct_table unicode_punct_symbol_han unicode_lower).
#[local] Abbreviation ToxicityList_init :=
  (ToxicityList_init punct_table unicode_punct_symbol_han unicode_lower).
#[local] Abbreviation lower_keeps_spaces := (lower_keeps_spaces unicode_lower).
#[local] Abbreviation line_phrase :=
  (line_phrase punct_table unicode_punct_symbol_han unicode_lower).

Lemma count_in_size (self : ToxicityList) (text : str) :
  count_in self text = size (filter (λ t, substring t text) (toxicity self)).
Proof.
  unfold count_in. rewrite count_foldr. apply length_filter_elements.
Qed.

Lemma lower_chunks (ws : list str) :
  lower_keeps_spaces → Forall chunk ws → Forall chunk (map lower ws).
Proof.
  intros [_ Hc] Hws. apply Forall_fmap.
  eapply Forall_impl; [exact Hws | exact Hc].
Qed.

Lemma lower_join (ws : list str) :
  lower_keeps_spaces →
  lower (str_join [space] ws) = str_join [space] (map lower ws).
Proof.
  intros [Happ _]. induction ws as [|w ws IH]; [done |].
  destruct ws as [|w2 ws]; [done |].
  rewrite join_cons by done. rewrite Happ, IH.
  change (map lower (w :: w2 :: ws)) with (lower w :: map lower (w2 :: ws)).
  by rewrite join_cons.
Qed.

Lemma lower_tokenize (s : str) :
  lower_keeps_spaces →
  lower (tokenize s)
  = [space] ++ str_join [space] (map lower (tokens (rup (str_strip s)))) ++ [space].
Proof.
  intros Hl. rewrite tokenize_unfold. destruct Hl as [Happ Hc].
  change ([space] ++ ?x ++ [space]) with ([] ++ space :: (x ++ space :: [])).
  rewrite !Happ. rewrite lower_join by done. reflexivity.
Qed.

Lemma lower_tokenize_padded (s : str) :
  lower_keeps_spaces → padded (lower (tokenize s)).
Proof.
  intros Hl. rewrite lower_tokenize by done.
  apply join_padded, lower_chunks, words_chunks, split_words. done.
Qed.

(** A query with at least one token has no two adjacent spaces in either
    of the two texts that the phrases are searched in. *)
Lemma tokenize_no_double_space (s : str) :
  tokenize s ≠ [space; space] → ¬ substring [space; space] (tokenize s).
Proof.
  intros Hne. rewrite tokenize_unfold.
  apply no_double_space_join; [apply words_chunks, split_words |].
  by apply tokenize_no_tokens.
Qed.

Lemma lower_tokenize_no_double_space (s : str) :
  lower_keeps_spaces →
  tokenize s ≠ [space; space] → ¬ substring [space; space] (lower (tokenize s)).
Proof.
  intros Hl Hne. rewrite lower_tokenize by done.
  apply no_double_space_join.
  - apply lower_chunks, words_chunks, split_words. done.
  - apply tokenize_no_tokens in Hne.
    destruct (tokens (rup (str_strip s))); done.
Qed.

Lemma add_lines_elem (lines : list str) (T : gset str) (x : str) :
  x ∈ fold_left add_line lines T
  ↔ x ∈ T ∨ ∃ l, l ∈ lines ∧ line_phrase l x.
Proof.
  revert T. induction lines as [|l lines IH]; intros T; simpl.
  - split; [by left | intros [? | (l & Hl & _)]; [done |]].
    by apply elem_of_nil in Hl.
  - rewrite IH. unfold add_line at 1, line_phrase.
    rewrite !elem_of_union, !elem_of_singleton. split.
    + intros [[Hx | [Hx | Hx]] | (l' & Hl' & Hx)].
      * right. exists l. split; [by left | by right].
      * right. exists l. split; [by left | by left].
      * by left.
      * right. exists l'. split; [by right | done].
    + intros [Hx | (l' & Hl' & Hx)]; [by left; right; right |].
      apply elem_of_cons in Hl' as [-> | Hl'].
      * left. destruct Hx as [Hx | Hx]; [right; by left | by left].
      * right. by exists l'.
Qed.

Lemma load_paths_elem (fs : gmap string entry) (paths : list string)
    (T S : gset str) (x : str) :
  load_paths fs T paths = inr S →
  x ∈ S ↔ x ∈ T ∨ ∃ p lines l,
            p ∈ paths ∧ open fs p = inr lines ∧ l ∈ lines ∧ line_phrase l x.
Proof.
  revert T. induction paths as [|p paths IH]; intros T Hload; simpl in Hload.
  - injection Hload as <-. split; [by left | intros [? | (p & ? & ? & Hp & _)]; [done |]].
    by apply elem_of_nil in Hp.
  - destruct (open fs p) as [e | lines] eqn:Hopen; [discriminate Hload |].
    simpl in Hload. rewrite (IH _ Hload), add_lines_elem. split.
    + intros [[Hx | (l & Hl & Hx)] | (q & ls & l & Hq & Hls & Hl & Hx)].
      * by left.
      * right. exists p, lines, l. split; [by left | done].
      * right. exists q, ls, l. split; [by right | done].
    + intros [Hx | (q & ls & l & Hq & Hls & Hl & Hx)]; [by left; left |].
      apply elem_of_cons in Hq as [-> | Hq].
      * left. right. exists l. rewrite Hopen in Hls. injection Hls as <-. done.
      * right. exists q, ls, l. done.
Qed.

Lemma init_elem (fs : gmap string entry) (paths : list string)
    (self : ToxicityList) (x : str) :
  ToxicityList_init fs paths = inr self →
  x ∈ toxicity self ↔ ∃ p lines l,
      p ∈ paths ∧ open fs p = inr lines ∧ l ∈ lines ∧ line_phrase l x.
Proof.
  unfold ToxicityList_init. intros Hinit.
  destruct (load_paths fs ∅ paths) as [e | S] eqn:Hload; [discriminate Hinit |].
  injection Hinit as <-. simpl. rewrite (load_paths_elem _ _ _ _ _ Hload).
  split; [intros [Hx | Hx]; [by apply not_elem_of_empty in Hx | done] | by right].
Qed.

(** The first path that cannot be opened decides the outcome. *)
Lemma load_paths_raises (fs : gmap string entry) (paths : list string)
    (T : gset str) (p : string) :
  p ∈ paths → (∃ e, open fs p = inl e) →
  ∃ e q, q ∈ paths ∧ open fs q = inl e ∧ load_paths fs T paths = inl e.
Proof.
  revert T. induction paths as [|q paths IH]; intros T Hp Herr.
  - by apply elem_of_nil in Hp.
  - simpl. destruct (open fs q) as [e | lines] eqn:Hopen.
    + exists e, q. split; [by left | done].
    + assert (p ∈ paths) as Hp'.
      { apply elem_of_cons in Hp as [-> | Hp]; [|done].
        destruct Herr as [e He]. congruence. }
      destruct (IH (fold_left add_line lines T) Hp' Herr) as (e & q' & Hq' & He & Hl).
      exists e, q'. split; [by right | done].
Qed.




Lemma open_drop_blank (fs : gmap string entry) (p : string) :
  open (drop_blank_lines <$> fs) p
  = match open fs p with
    | inl e => inl e
    | inr lines => inr (List.filter (λ l, negb (is_blank l)) lines)
    end.
Proof.
  unfold open. rewrite lookup_fmap.
  destruct (fs !! p) as [[lines | | |]|]; simpl; try done.
  by destruct (has_nul p).
Qed.

Lemma blank_line_phrase (l x : str) :
  is_blank l = true → line_phrase l x → x = [space; space].
Proof.
  unfold is_blank, line_phrase. destruct (str_strip l) eqn:E; [|done].
  intros _ [-> | ->]; reflexivity.
Qed.

End Matcher.

(** ** The properties of the specification *)

Section Claims.

Context (punct_table : gmap char str).
Context (unicode_punct_symbol_han : char → bool).
Context (unicode_lower : str → str).
Context (format_lang : string → string → string).

#[local] Abbreviation rup := (replace_unicode_punct punct_table).
#[local] Abbreviation tokenize := (_tokenize punct_table unicode_punct_symbol_han).
#[local] Abbreviation lower := (str_lower unicode_lower).
#[local] Abbreviation toxicity_count :=
  (toxicity_count punct_table unicode_punct_symbol_han unicode_lower).
#[local] Abbreviation load_paths :=
  (load_paths punct_table unicode_punct_symbol_han unicode_lower).
#[local] Abbreviation ToxicityList_init :=
  (ToxicityList_init punct_table unicode_punct_symbol_han unicode_lower).
#[local] Abbreviation ToxicityFilter_init :=
  (ToxicityFilter_init punct_table unicode_punct_symbol_han unicode_lower
     format_lang).
#[local] Abbreviation filter_line :=
  (filter_line punct_table unicode_punct_symbol_han unicode_lower).
#[local] Abbreviation lower_keeps_spaces := (lower_keeps_spaces unicode_lower).

(** C1. [toxicity_count s] is the larger of two cardinalities: that of the
    stored phrases that are substrings of the tokenized query, and that of
    the stored phrases that are substrings of the lowercased tokenized
    query.  The tokenized query is the text the method searches in,
    [_tokenize (replace_unicode_punct s)].  A phrase is counted once however
    often it occurs, so neither number exceeds the size of the set. *)
Theorem toxicity_count_max_of_distinct_matches (self : ToxicityList) (s : str) :
  let tokenized := tokenize (rup s) in
  let regular :=
    size (filter (λ t, substring t tokenized) (toxicity self)) in
  let lowercased :=
    size (filter (λ t, substring t (lower tokenized)) (toxicity self)) in
  toxicity_count self s = Nat.max regular lowercased
  ∧ regular ≤ size (toxicity self)
  ∧ lowercased ≤ size (toxicity self).
Proof.
  cbv zeta. unfold toxicity_count. rewrite !count_in_size.
  split; [done |]. split; apply subseteq_size; intros t Ht;
    by apply elem_of_filter in Ht as [_ ?].
Qed.

Lemma load_paths_drop_blank (fs : gmap string entry) (paths : list string)
    (T T' S : gset str) :
  load_paths fs T paths = inr S →
  ∃ S', load_paths (drop_blank_lines <$> fs) T' paths = inr S'.
Proof.
  revert T T'. induction paths as [|p paths IH]; intros T T' Hload; simpl in *.
  - by exists T'.
  - rewrite open_drop_blank.
    destruct (open fs p) as [e | lines]; [discriminate Hload |].
    simpl in *. by eapply IH.
Qed.

Lemma filter_not_blank_elem (lines : list str) (l : str) :
  l ∈ List.filter (λ l, negb (is_blank l)) lines
  ↔ l ∈ lines ∧ is_blank l = false.
Proof.
  rewrite !list_elem_of_In, filter_In, negb_true_iff. done.
Qed.

(** A blank line leaves the two-space string in the set, and the empty
    query finds it there. *)
Lemma blank_line_member (fs : gmap string entry) (paths : list string)
    (self : ToxicityList) (p : string) (lines : list str) (l : str) :
  ToxicityList_init fs paths = inr self →
  p ∈ paths → open fs p = inr lines → l ∈ lines → is_blank l = true →
  [space; space] ∈ toxicity self.
Proof.
  intros Hinit Hp Hopen Hl Hb. rewrite (init_elem _ _ _ _ _ _ _ Hinit).
  exists p, lines, l. repeat split; try done. left.
  unfold is_blank in Hb. destruct (str_strip l); [reflexivity | done].
Qed.

Lemma empty_query_finds_two_spaces (self : ToxicityList) :
  [space; space] ∈ toxicity self → 1 ≤ toxicity_count self [].
Proof.
  intros Hin. unfold toxicity_count. rewrite !count_in_size.
  etrans; [|apply Nat.le_max_l].
  change 1 with (size ({[ [space; space] ]} : gset str)) at 1.
  apply subseteq_size. intros x Hx. apply elem_of_singleton in Hx as ->.
  apply elem_of_filter. split; [by exists [], [] | done].
Qed.

(** C2, amended.  A blank line is not skipped when a file is loaded: it puts
    the two-space string into the set.  For every query whose tokenized form
    inside [toxicity_count] has at least one token (it is not the two-space
    string), the list loaded from the files and the list loaded from the
    files without their blank lines give the same count; the second list can
    be built whenever the first can. *)
Theorem blank_lines_ignored_for_queries_with_a_token
    (fs : gmap string entry) (paths : list string) (self : ToxicityList)
    (s : str) :
  lower_keeps_spaces →
  ToxicityList_init fs paths = inr self →
  tokenize (rup s) ≠ [space; space] →
  ∃ self', ToxicityList_init (drop_blank_lines <$> fs) paths = inr self'
           ∧ toxicity_count self s = toxicity_count self' s.
Proof.
  intros Hlow Hinit Htok.
  assert (∃ self', ToxicityList_init (drop_blank_lines <$> fs) paths = inr self')
    as [self' Hinit'].
  { unfold ToxicityList_init in *.
    destruct (load_paths fs ∅ paths) as [e | S] eqn:Hload; [discriminate Hinit |].
    destruct (load_paths_drop_blank _ _ _ ∅ _ Hload) as [S' ->]. by eexists. }
  exists self'. split; [done |].
  assert (toxicity self' ⊆ toxicity self) as Hsub.
  { intros x. rewrite (init_elem _ _ _ _ _ _ x Hinit').
    rewrite (init_elem _ _ _ _ _ _ x Hinit).
    intros (p & lines & l & Hp & Hopen & Hl & Hx).
    rewrite open_drop_blank in Hopen.
    destruct (open fs p) as [e | lines0] eqn:E; [discriminate Hopen |].
    injection Hopen as <-. apply filter_not_blank_elem in Hl as [Hl _].
    by exists p, lines0, l. }
  assert (∀ t, t ∈ toxicity self → t ∈ toxicity self' ∨ t = [space; space])
    as Hback.
  { intros x. rewrite (init_elem _ _ _ _ _ _ x Hinit').
    rewrite (init_elem _ _ _ _ _ _ x Hinit).
    intros (p & lines & l & Hp & Hopen & Hl & Hx).
    destruct (is_blank l) eqn:Hb.
    - right. by eapply blank_line_phrase.
    - left. exists p, (List.filter (λ l, negb (is_blank l)) lines), l.
      rewrite open_drop_blank, Hopen. split; [done |]. split; [done |].
      split; [by apply filter_not_blank_elem | done]. }
  unfold toxicity_count. rewrite !count_in_size.
  rewrite (filter_without _ _ _ [space; space]
             (tokenize_no_double_space _ _ _ Htok) Hsub Hback).
  rewrite (filter_without _ _ _ [space; space]
             (lower_tokenize_no_double_space _ _ _ _ Hlow Htok) Hsub Hback).
  done.
Qed.

(** C3. After a [ToxicityList] has been built from any list of phrase files,
    every member of its set is a space, a body that neither starts nor ends
    with a space, and a space; each line of each file has put its tokenized
    form and the lowercased tokenized form into the set, and both have that
    shape. *)
Theorem phrase_set_members_padded
    (fs : gmap string entry) (paths : list string) (self : ToxicityList) :
  lower_keeps_spaces →
  ToxicityList_init fs paths = inr self →
  (∀ m, m ∈ toxicity self → padded m)
  ∧ (∀ p lines l, p ∈ paths → open fs p = inr lines → l ∈ lines →
       let tokenized := tokenize (str_strip l) in
       tokenized ∈ toxicity self ∧ lower tokenized ∈ toxicity self
       ∧ padded tokenized ∧ padded (lower tokenized)).
Proof.
  intros Hlow Hinit. split.
  - intros m. rewrite (init_elem _ _ _ _ _ _ m Hinit).
    intros (p & lines & l & _ & _ & _ & [-> | ->]).
    + apply tokenize_padded.
    + by apply lower_tokenize_padded.
  - intros p lines l Hp Hopen Hl. cbv zeta.
    rewrite !(init_elem _ _ _ _ _ _ _ Hinit).
    split; [exists p, lines, l; repeat split; try done; by left |].
    split; [exists p, lines, l; repeat split; try done; by right |].
    split; [apply tokenize_padded | by apply lower_tokenize_padded].
Qed.

(** C4. The text that [toxicity_count] searches in, obtained by applying the
    punctuation rewrite to the query and then tokenizing it (which applies
    the rewrite once more), is the text that one call of [_tokenize] gives
    for the same string, as at load time.  The substitution table is taken
    to replace no character of its own replacement strings and no
    whitespace character. *)
Theorem query_tokenization_equals_load_tokenization (s : str) :
  values_fixed punct_table → whitespace_fixed punct_table →
  tokenize (rup s) = tokenize s.
Proof.
  intros Hv Hw. rewrite !tokenize_unfold.
  rewrite (tokens_strip _ _ (rup s)) by done.
  rewrite rup_idem by done. by rewrite tokens_strip.
Qed.

(** C5. Tokenizing a tokenized string changes nothing, under the same two
    conditions on the substitution table. *)
Theorem tokenize_idempotent (s : str) :
  values_fixed punct_table → whitespace_fixed punct_table →
  tokenize (tokenize s) = tokenize s.
Proof.
  intros Hv Hw. rewrite (tokenize_unfold _ _ (tokenize s)).
  rewrite tokens_strip by done.
  rewrite rup_not_keys by by apply tokenize_not_keys.
  rewrite (tokenize_unfold _ _ s) at 1. rewrite tokens_pad.
  rewrite tokens_join by apply tokens_are_tokens.
  by rewrite tokenize_unfold.
Qed.

(** C6. For every input the tokenizer's output is a space, a body that
    neither starts nor ends with a space, and a space.  It has at least two
    characters, and it is the two-space string for the empty input and for
    every input made of whitespace only (the strings [filter isspace s]). *)
Theorem tokenize_padding (s : str) :
  padded (tokenize s)
  ∧ 2 ≤ length (tokenize s)
  ∧ tokenize [] = [space; space]
  ∧ tokenize (List.filter isspace s) = [space; space].
Proof.
  split; [apply tokenize_padded |]. split.
  - rewrite tokenize_unfold, !length_app. simpl. lia.
  - split; [reflexivity |]. apply tokenize_all_space, filter_isspace_all_space.
Qed.

(** C7. With the query fixed, a larger phrase set never gives a smaller
    count. *)
Theorem toxicity_count_monotone (A B : ToxicityList) (s : str) :
  toxicity A ⊆ toxicity B → toxicity_count A s ≤ toxicity_count B s.
Proof.
  intros Hsub. unfold toxicity_count. rewrite !count_in_size.
  apply Nat.max_le_compat; apply subseteq_size; intros t;
    rewrite !elem_of_filter; intros [? ?]; split; auto.
Qed.

Lemma rup_ascii (s : str) :
  ascii_fixed punct_table → forallb is_ascii s = true → rup s = s.
Proof.
  intros Hfix Hs. apply rup_not_keys. apply Forall_forall. intros c Hc.
  rewrite forallb_forall in Hs. apply list_elem_of_In, Hs in Hc.
  destruct (punct_table !! c) as [r|] eqn:E; [|done].
  apply (map_Forall_lookup_1 _ _ _ _ Hfix) in E. simpl in E. congruence.
Qed.

(** C8. The list is loaded from one file whose only line is [slur1], with or
    without the line feed that ends it.  Then
    [hello slur1 world] tokenizes to itself between two spaces and counts 1;
    [hello SLUR1 world] counts 1, with 0 from the case-sensitive pass and 1
    from the lowercased pass; [hello slur11 world] tokenizes without a
    boundary inside [slur11] and counts 0.  The substitution table is taken
    to have no ASCII key. *)
Theorem slur1_scenario :
  ascii_fixed punct_table →
  ∃ self,
    ToxicityList_init {[ "phrases.txt"%string := RegularFile [u "slur1"] ]}
      ["phrases.txt"%string] = inr self
    ∧ ToxicityList_init
        {[ "phrases.txt"%string := RegularFile [u "slur1" ++ [newline]] ]}
        ["phrases.txt"%string] = inr self
    ∧ toxicity self = {[ u " slur1 " ]}
    ∧ tokenize (u "hello slur1 world") = u " hello slur1 world "
    ∧ toxicity_count self (u "hello slur1 world") = 1
    ∧ toxicity_count self (u "hello SLUR1 world") = 1
    ∧ count_in self (tokenize (rup (u "hello SLUR1 world"))) = 0
    ∧ count_in self (lower (tokenize (rup (u "hello SLUR1 world")))) = 1
    ∧ tokenize (u "hello slur11 world") = u " hello slur11 world "
    ∧ toxicity_count self (u "hello slur11 world") = 0.
Proof.
  intros Hfix.
  assert (∀ s t, forallb is_ascii s = true →
            _tokenize ∅ unicode_punct_symbol_han s = t → tokenize s = t)
    as Htok.
  { intros s t Hs <-. unfold _tokenize.
    assert (forallb is_ascii (str_strip s) = true) as Hs'.
    { destruct (strip_decomp s) as (l & r & _ & _ & Heq). rewrite Heq in Hs.
      rewrite !forallb_app, !andb_true_iff in Hs. tauto. }
    rewrite rup_ascii by done.
    by rewrite (rup_not_keys ∅) by (apply Forall_forall; intros; apply lookup_empty). }
  assert (tokenize (str_strip (u "slur1")) = u " slur1 ") as H0
    by (by apply Htok; vm_compute).
  assert (tokenize (str_strip (u "slur1" ++ [newline])) = u " slur1 ") as H0'
    by (by apply Htok; vm_compute).
  assert (tokenize (u "hello slur1 world") = u " hello slur1 world ") as H1
    by (by apply Htok; vm_compute).
  assert (tokenize (u "hello SLUR1 world") = u " hello SLUR1 world ") as H2
    by (by apply Htok; vm_compute).
  assert (tokenize (u "hello slur11 world") = u " hello slur11 world ") as H3
    by (by apply Htok; vm_compute).
  exists {| toxicity := {[ u " slur1 " ]} |}.
  assert (∀ s, forallb is_ascii s = true → rup s = s) as Hrup
    by (intros; by apply rup_ascii).
  unfold toxicity_count. rewrite !Hrup by (by vm_compute).
  rewrite H1, H2, H3. split; [|split].
  - unfold ToxicityList_init, load_paths, open. rewrite lookup_singleton_eq.
    unfold mbind, raise_bind, fold_left, add_line. rewrite H0.
    vm_compute. reflexivity.
  - unfold ToxicityList_init, load_paths, open. rewrite lookup_singleton_eq.
    unfold mbind, raise_bind, fold_left, add_line. rewrite H0'.
    vm_compute. reflexivity.
  - vm_compute. repeat split; reflexivity.
Qed.


(** C10. A filter built with no target language and with an auxiliary list
    has a target list, the one loaded from the auxiliary path alone, and
    [filter_line] scores the target text of a line against it: the counter
    left by the check of the source side goes up by one exactly when a
    threshold is set and the target's count is above it. *)
Theorem target_list_from_auxiliary_alone
    (fs : gmap string entry) (twl_path_template eng_porn_twl_path : string)
    (max_tox max_diff : option Z) (src_lang : string) (self : ToxicityFilter) :
  ToxicityFilter_init fs twl_path_template (Some eng_porn_twl_path)
    max_tox max_diff src_lang None = inr self →
  ∃ aux,
    tgt_toxicity_list self = Some aux
    ∧ ToxicityList_init fs [eng_porn_twl_path] = inr aux
    ∧ ∀ (line : DatasetLine) (t : str) (counts : FilteringCounts),
        tgt line = Some t →
        let after_src :=
          filter_line self {| src := src line; tgt := None |} counts in
        filter_line self line counts
        = (after_src.1,
           match max_tox with
           | Some m =>
               if (Z.of_nat (toxicity_count aux t) >? m)%Z
               then {| counts_max_toxicity :=
                         counts_max_toxicity after_src.2 + 1 |}
               else after_src.2
           | None => after_src.2
           end).
Proof.
  unfold ToxicityFilter_init. intros Hinit.
  match type of Hinit with
  | (?m ≫= _) = _ => destruct m as [e | src_list]; [discriminate Hinit |]
  end.
  unfold mbind, raise_bind, list_of_paths in Hinit. simpl in Hinit.
  destruct (ToxicityList_init fs [eng_porn_twl_path]) as [e | aux] eqn:Haux;
    [discriminate Hinit |].
  injection Hinit as <-. exists aux. split; [done |]. split; [done |].
  intros line t counts Ht. unfold filter_line. simpl. rewrite Ht.
  destruct src_list as [l|]; [|by destruct max_tox as [m|]; [case_match |]].
  destruct max_tox as [m|]; [|done]. by repeat case_match.
Qed.

End Claims.

(** ** The sample parts satisfy what the statements assume *)

Lemma sample_values_fixed : values_fixed sample_table.
Proof. apply (bool_decide_unpack _). by vm_compute. Qed.

Lemma sample_whitespace_fixed : whitespace_fixed sample_table.
Proof. apply (bool_decide_unpack _). by vm_compute. Qed.

Lemma sample_ascii_fixed : ascii_fixed sample_table.
Proof. apply (bool_decide_unpack _). by vm_compute. Qed.

Lemma sample_lower_char_ascii (c : char) :
  is_ascii c = true → sample_lower_char c = ascii_lower c.
Proof.
  unfold is_ascii, sample_lower_char. intros Hc. apply N.ltb_lt in Hc.
  destruct (0x391 <=? c)%N eqn:E; [|done].
  apply N.leb_le in E. lia.
Qed.

Lemma sample_lower_map (s : str) :
  str_lower sample_lower s = map sample_lower_char s.
Proof.
  unfold str_lower, sample_lower. destruct (forallb is_ascii s) eqn:E; [|done].
  rewrite forallb_forall in E. apply map_ext_in. intros c Hc.
  symmetry. by apply sample_lower_char_ascii, E.
Qed.

Lemma sample_lower_char_space (c : char) :
  sample_lower_char c = space → c = space.
Proof.
  unfold sample_lower_char, ascii_lower, space.
  destruct ((0x391 <=? c) && (c <=? 0x3A9))%N eqn:E1.
  - apply andb_true_iff in E1 as [H1 _]. apply N.leb_le in H1. lia.
  - destruct ((0x41 <=? c) && (c <=? 0x5A))%N eqn:E2; [|done].
    apply andb_true_iff in E2 as [H1 _]. apply N.leb_le in H1. lia.
Qed.

Lemma sample_lower_keeps_spaces : lower_keeps_spaces sample_lower.
Proof.
  split.
  - intros a b. rewrite !sample_lower_map, map_app. reflexivity.
  - intros a [Hne Hsp]. rewrite sample_lower_map. split.
    + by destruct a.
    + intros Hin. apply Hsp. apply list_elem_of_In, in_map_iff in Hin.
      destruct Hin as (c & Hc & Hin). apply sample_lower_char_space in Hc.
      subst c. by apply list_elem_of_In.
Qed.

(** ** The definitions at work on concrete inputs *)

Example tokenize_punctuation :
  _tokenize sample_table sample_class (u "  Hello, world!  it's ")
  = u " Hello , world ! it ' s ".
Proof. by vm_compute. Qed.

Example tokenize_han_and_dash :
  _tokenize sample_table sample_class
    [0x4F60; 0x597D; 0x2014; 0x61; 0x3000; 0x62]%N
  = [0x20; 0x4F60; 0x20; 0x597D; 0x20; 0x2D; 0x20; 0x61; 0x20; 0x62; 0x20]%N.
Proof. by vm_compute. Qed.

Example class_does_not_contain_ass :
  toxicity_count sample_table sample_class sample_lower
    {| toxicity := {[ u " ass " ]} |} (u "a class act") = 0.
Proof. by vm_compute. Qed.

Example repeated_phrase_counts_once :
  toxicity_count sample_table sample_class sample_lower
    {| toxicity := {[ u " slur1 " ]} |} (u "slur1 slur1, slur1!") = 1.
Proof. by vm_compute. Qed.

Example damn_in_either_case :
  let self := {| toxicity := {[ u " Damn " ]} ∪ {[ u " damn " ]} |} in
  toxicity_count sample_table sample_class sample_lower self
    (u "this is DAMN annoying") = 1
  ∧ toxicity_count sample_table sample_class sample_lower self
      (u "this is Damn annoying") = 1.
Proof. by vm_compute. Qed.

Example sample_list_loaded :
  ToxicityList_init sample_table sample_class sample_lower sample_fs
    ["toxic.txt"%string] = inr sample_list.
Proof. by vm_compute. Qed.

(** C2 as stated fails: a file whose second line is blank gives a list that
    counts 1 on the empty query, and the same file without the blank line
    gives a list that counts 0 on it. *)
Lemma blank_line_counts_on_empty_query :
  ∃ with_blank without_blank,
    ToxicityList_init sample_table sample_class sample_lower
      {[ "toxic.txt"%string := RegularFile [u "slur1" ++ [newline]; [newline]] ]}
      ["toxic.txt"%string] = inr with_blank
    ∧ ToxicityList_init sample_table sample_class sample_lower
        (drop_blank_lines <$>
           {[ "toxic.txt"%string :=
                RegularFile [u "slur1" ++ [newline]; [newline]] ]})
        ["toxic.txt"%string] = inr without_blank
    ∧ toxicity_count sample_table sample_class sample_lower with_blank [] = 1
    ∧ toxicity_count sample_table sample_class sample_lower without_blank [] = 0.
Proof.
  exists {| toxicity := {[ u " slur1 " ]} ∪ {[ [space; space] ]} |},
         {| toxicity := {[ u " slur1 " ]} |}.
  by vm_compute.
Qed.

Lemma blank_lines_ignored_witness :
  ∃ self',
    ToxicityList_init sample_table sample_class sample_lower
      (drop_blank_lines <$> sample_fs) ["toxic.txt"%string] = inr self'
    ∧ toxicity_count sample_table sample_class sample_lower sample_list
        (u "hello slur1 world")
      = toxicity_count sample_table sample_class sample_lower self'
          (u "hello slur1 world").
Proof.
  apply (blank_lines_ignored_for_queries_with_a_token
           sample_table sample_class sample_lower sample_fs
           ["toxic.txt"%string] sample_list (u "hello slur1 world")).
  - apply sample_lower_keeps_spaces.
  - vm_compute. reflexivity.
  - vm_compute. discriminate.
Defined.

Lemma phrase_set_members_padded_witness :
  (∀ m, m ∈ toxicity sample_list → padded m)
  ∧ (∀ p lines l, p ∈ ["toxic.txt"%string] → open sample_fs p = inr lines →
       l ∈ lines →
       let tokenized := _tokenize sample_table sample_class (str_strip l) in
       tokenized ∈ toxicity sample_list
       ∧ str_lower sample_lower tokenized ∈ toxicity sample_list
       ∧ padded tokenized ∧ padded (str_lower sample_lower tokenized)).
Proof.
  apply (phrase_set_members_padded sample_table sample_class sample_lower
           sample_fs ["toxic.txt"%string] sample_list).
  - apply sample_lower_keeps_spaces.
  - vm_compute. reflexivity.
Defined.

Lemma query_tokenization_witness :
  _tokenize sample_table sample_class
    (replace_unicode_punct sample_table fancy_text)
  = _tokenize sample_table sample_class fancy_text.
Proof.
  apply (query_tokenization_equals_load_tokenization sample_table sample_class
           fancy_text).
  - apply sample_values_fixed.
  - apply sample_whitespace_fixed.
Defined.

Lemma tokenize_idempotent_witness :
  _tokenize sample_table sample_class
    (_tokenize sample_table sample_class fancy_text)
  = _tokenize sample_table sample_class fancy_text.
Proof.
  apply (tokenize_idempotent sample_table sample_class fancy_text).
  - apply sample_values_fixed.
  - apply sample_whitespace_fixed.
Defined.

Lemma toxicity_count_monotone_witness :
  toxicity_count sample_table sample_class sample_lower
    {| toxicity := {[ u " slur1 " ]} |} (u "Damn slur1")
  ≤ toxicity_count sample_table sample_class sample_lower
      sample_list (u "Damn slur1").
Proof.
  apply (toxicity_count_monotone sample_table sample_class sample_lower
           {| toxicity := {[ u " slur1 " ]} |} sample_list (u "Damn slur1")).
  apply (bool_decide_unpack _). vm_compute. reflexivity.
Defined.

Lemma slur1_scenario_witness :
  ∃ self,
    ToxicityList_init sample_table sample_class sample_lower
      {[ "phrases.txt"%string := RegularFile [u "slur1"] ]}
      ["phrases.txt"%string] = inr self
    ∧ ToxicityList_init sample_table sample_class sample_lower
        {[ "phrases.txt"%string := RegularFile [u "slur1" ++ [newline]] ]}
        ["phrases.txt"%string] = inr self
    ∧ toxicity self = {[ u " slur1 " ]}
    ∧ _tokenize sample_table sample_class (u "hello slur1 world")
      = u " hello slur1 world "
    ∧ toxicity_count sample_table sample_class sample_lower self
        (u "hello slur1 world") = 1
    ∧ toxicity_count sample_table sample_class sample_lower self
        (u "hello SLUR1 world") = 1
    ∧ count_in self (_tokenize sample_table sample_class
                       (replace_unicode_punct sample_table
                          (u "hello SLUR1 world"))) = 0
    ∧ count_in self (str_lower sample_lower
                       (_tokenize sample_table sample_class
                          (replace_unicode_punct sample_table
                             (u "hello SLUR1 world")))) = 1
    ∧ _tokenize sample_table sample_class (u "hello slur11 world")
      = u " hello slur11 world "
    ∧ toxicity_count sample_table sample_class sample_lower self
        (u "hello slur11 world") = 0.
Proof.
  apply (slur1_scenario sample_table sample_class sample_lower).
  apply sample_ascii_fixed.
Defined.



Lemma target_list_witness :
  ∃ aux,
    tgt_toxicity_list sample_filter = Some aux
    ∧ ToxicityList_init sample_table sample_class sample_lower sample_fs
        ["toxic.txt"%string] = inr aux
    ∧ ∀ (line : DatasetLine) (t : str) (counts : FilteringCounts),
        tgt line = Some t →
        let after_src :=
          filter_line sample_table sample_class sample_lower sample_filter
            {| src := src line; tgt := None |} counts in
        filter_line sample_table sample_class sample_lower sample_filter
          line counts
        = (after_src.1,
           match Some 0%Z with
           | Some m =>
               if (Z.of_nat (toxicity_count sample_table sample_class
                               sample_lower aux t) >? m)%Z
               then {| counts_max_toxicity :=
                         counts_max_toxicity after_src.2 + 1 |}
               else after_src.2
           | None => after_src.2
           end).
Proof.
  apply (target_list_from_auxiliary_alone sample_table sample_class
           sample_lower sample_format sample_fs "twl-"%string
           "toxic.txt"%string (Some 0%Z) None "eng"%string sample_filter).
  vm_compute. reflexivity.
Defined.

(** ** Further facts about trimming, splitting and joining *)

Lemma lstrip_app_all_space (l s : str) :
  all_space l → str_lstrip (l ++ s) = str_lstrip s.
Proof. induction 1 as [|c l Hc _ IH]; simpl; [done | by rewrite Hc]. Qed.

Lemma lstrip_app (s r : str) :
  str_lstrip (s ++ r)
  = match str_lstrip s with
    | [] => str_lstrip r
    | _ :: _ => str_lstrip s ++ r
    end.
Proof.
  induction s as [|c s IH]; simpl; [by destruct (str_lstrip r) |].
  destruct (isspace c); [exact IH | done].
Qed.

Lemma rstrip_app_all_space (s r : str) :
  all_space r → str_rstrip (s ++ r) = str_rstrip s.
Proof.
  intros Hr. unfold str_rstrip. rewrite rev_app_distr.
  rewrite lstrip_app_all_space by by apply Forall_rev. done.
Qed.

Lemma strip_outer_whitespace (l s r : str) :
  all_space l → all_space r → str_strip (l ++ s ++ r) = str_strip s.
Proof.
  intros Hl Hr. unfold str_strip.
  rewrite lstrip_app_all_space by done. rewrite lstrip_app.
  destruct (str_lstrip s) as [|c t] eqn:E.
  - by rewrite lstrip_all_space.
  - by rewrite rstrip_app_all_space.
Qed.

Lemma join_snoc_flat (ws : list str) :
  ws ≠ [] →
  str_join [space] ws ++ [space] = flat_map (λ w, w ++ [space]) ws.
Proof.
  induction ws as [|w ws IH]; intros Hne; [done |].
  destruct ws as [|w2 ws].
  - rewrite join_singleton. simpl. by rewrite app_nil_r.
  - rewrite join_cons by done.
    change (flat_map (λ w, w ++ [space]) (w :: w2 :: ws))
      with ((w ++ [space]) ++ flat_map (λ w, w ++ [space]) (w2 :: ws)).
    rewrite <- IH by done. by rewrite <- !app_assoc.
Qed.

(** A run of pieces inside a longer run of pieces shows as a substring once
    both are joined and padded. *)
Lemma padded_join_infix (A B C : list str) :
  B ≠ [] →
  substring ([space] ++ str_join [space] B ++ [space])
            ([space] ++ str_join [space] (A ++ B ++ C) ++ [space]).
Proof.
  intros HB.
  assert (A ++ B ++ C ≠ []) as HQ by (destruct A, B; done).
  rewrite !join_snoc_flat by done. rewrite !flat_map_app.
  destruct A as [|a A].
  - by exists [], (flat_map (λ w, w ++ [space]) C).
  - rewrite <- (join_snoc_flat (a :: A)) by done.
    exists ([space] ++ str_join [space] (a :: A)),
           (flat_map (λ w, w ++ [space]) C).
    by rewrite <- !app_assoc.
Qed.

Lemma split_padded_join (ws : list str) :
  Forall word ws → str_split ([space] ++ str_join [space] ws ++ [space]) = ws.
Proof.
  intros Hws.
  rewrite split_app_all_space_l by by repeat constructor.
  rewrite split_app_all_space_r by by repeat constructor.
  by apply split_join.
Qed.

(** Conversely a padded join found inside another one is a run of its
    pieces. *)
Lemma padded_join_substring_inv (B Q : list str) :
  Forall word B → Forall word Q →
  substring ([space] ++ str_join [space] B ++ [space])
            ([space] ++ str_join [space] Q ++ [space]) →
  ∃ A C, Q = A ++ B ++ C.
Proof.
  intros HB HQ (l & r & Heq). exists (str_split l), (str_split r).
  apply (f_equal str_split) in Heq. rewrite split_padded_join in Heq by done.
  rewrite Heq.
  change (l ++ ([space] ++ str_join [space] B ++ [space]) ++ r)
    with (l ++ space :: ((str_join [space] B ++ [space]) ++ r)).
  rewrite <- app_assoc.
  change (str_join [space] B ++ [space] ++ r)
    with (str_join [space] B ++ space :: r).
  rewrite !split_app_space by apply isspace_space.
  by rewrite split_join.
Qed.

Lemma size_union_le (X Y : gset str) : size (X ∪ Y) ≤ size X + size Y.
Proof.
  rewrite size_union_alt. apply Nat.add_le_mono_l, subseteq_size.
  intros x Hx. by apply elem_of_difference in Hx as [? _].
Qed.

Lemma split_app_all_space_mid (a ws b : str) :
  ws ≠ [] → all_space ws → str_split (a ++ ws ++ b) = str_split a ++ str_split b.
Proof.
  intros Hne Hws. destruct Hws as [|c ws Hc Hws]; [done |].
  change (a ++ (c :: ws) ++ b) with (a ++ c :: (ws ++ b)).
  rewrite split_app_space by done. by rewrite split_app_all_space_l.
Qed.

(** ** More about the tokenizer *)

Section TokenizerFacts.

Context (punct_table : gmap char str).
Context (unicode_punct_symbol_han : char → bool).

#[local] Abbreviation rup := (replace_unicode_punct punct_table).
#[local] Abbreviation split_sub := (split_sub unicode_punct_symbol_han).
#[local] Abbreviation tokenize := (_tokenize punct_table unicode_punct_symbol_han).
#[local] Abbreviation token := (token unicode_punct_symbol_han).

Lemma split_tokenize (s : str) :
  str_split (tokenize s) = str_split (split_sub (rup (str_strip s))).
Proof. rewrite tokenize_unfold. apply split_padded_join, split_words. Qed.

Lemma tokenize_of_tokens (s : str) :
  tokenize s = [space] ++ str_join [space] (str_split (tokenize s)) ++ [space].
Proof. by rewrite split_tokenize, tokenize_unfold. Qed.

Lemma split_sub_whitespace (c : char) :
  isspace c = true → split_sub [c] ≠ [] ∧ all_space (split_sub [c]).
Proof.
  intros Hc. split.
  - unfold split_sub. simpl. by case_match.
  - apply split_sub_all_space. by repeat constructor.
Qed.

Lemma tokenize_trim (l s r : str) :
  all_space l → all_space r → tokenize (l ++ s ++ r) = tokenize s.
Proof.
  intros Hl Hr. rewrite !tokenize_unfold.
  by rewrite strip_outer_whitespace.
Qed.

Lemma tokenize_strip (s : str) : tokenize (str_strip s) = tokenize s.
Proof.
  destruct (strip_decomp s) as (l & r & Hl & Hr & Hs).
  rewrite Hs at 2. by rewrite tokenize_trim.
Qed.

Lemma tokenize_after_rup (s : str) :
  values_fixed punct_table → whitespace_fixed punct_table →
  tokenize (rup s) = tokenize s.
Proof.
  intros Hv Hw. rewrite !tokenize_unfold.
  rewrite (tokens_strip _ _ (rup s)) by done.
  rewrite rup_idem by done. by rewrite tokens_strip.
Qed.

Lemma split_tokenize_app (a b : str) (c : char) :
  whitespace_fixed punct_table → isspace c = true →
  str_split (tokenize (a ++ c :: b))
  = str_split (tokenize a) ++ str_split (tokenize b).
Proof.
  intros Hfix Hc. rewrite !split_tokenize, !tokens_strip by done.
  change (a ++ c :: b) with (a ++ [c] ++ b).
  rewrite !rup_app. rewrite (rup_all_space _ [c]) by (by repeat constructor).
  rewrite !split_sub_app.
  destruct (split_sub_whitespace c Hc) as [Hne Hall].
  by apply split_app_all_space_mid.
Qed.

Lemma token_run_substring (l s : str) (A C : list str) :
  tokenize l ≠ [space; space] →
  str_split (tokenize s) = A ++ str_split (tokenize l) ++ C →
  substring (tokenize l) (tokenize s).
Proof.
  intros Hne Hrun. rewrite (tokenize_of_tokens l), (tokenize_of_tokens s).
  rewrite Hrun. apply padded_join_infix. intros Hnil. apply Hne.
  by rewrite tokenize_of_tokens, Hnil.
Qed.

(** X1. Whitespace around the input does not reach the output. *)
Theorem tokenize_outer_whitespace (l s r : str) :
  all_space l → all_space r →
  _tokenize punct_table unicode_punct_symbol_han (l ++ s ++ r)
  = _tokenize punct_table unicode_punct_symbol_han s.
Proof. apply tokenize_trim. Qed.

(** X2. Split on whitespace, the output gives tokens that the pattern cannot
    split further: words in which it matches nothing, and matched characters
    alone.  Joining them with single spaces and padding gives the output
    back. *)
Theorem tokenize_isolates_matches (s : str) :
  Forall token (str_split (tokenize s))
  ∧ tokenize s = [space] ++ str_join [space] (str_split (tokenize s)) ++ [space].
Proof.
  split; [|apply tokenize_of_tokens].
  rewrite split_tokenize. apply tokens_are_tokens.
Qed.

(** X3. The output has two adjacent spaces only when it is the two-space string,
    the output for an input without tokens. *)
Theorem tokenize_double_space_iff (s : str) :
  substring [space; space] (tokenize s) ↔ tokenize s = [space; space].
Proof.
  split.
  - intros Hsub. destruct (decide (tokenize s = [space; space])) as [|Hne];
      [done |].
    exfalso. revert Hsub. rewrite tokenize_unfold.
    apply no_double_space_join; [apply words_chunks, split_words |].
    by apply tokenize_no_tokens.
  - intros ->. by exists [], [].
Qed.

(** X4. Tabs, line feeds and every other whitespace character of the input come
    out as the space or not at all. *)
Theorem tokenize_whitespace_is_space (s : str) (c : char) :
  c ∈ tokenize s → isspace c = true → c = space.
Proof.
  rewrite tokenize_unfold. intros Hc Hsp.
  apply elem_of_app in Hc as [Hc | Hc];
    [by apply list_elem_of_singleton in Hc |].
  apply elem_of_app in Hc as [Hc | Hc];
    [| by apply list_elem_of_singleton in Hc].
  apply join_elem in Hc as [-> | (w & Hw & Hc)]; [done |].
  pose proof (split_words (split_sub (rup (str_strip s)))) as Hall.
  rewrite Forall_forall in Hall. destruct (Hall _ Hw) as [_ Hns].
  rewrite Forall_forall in Hns. specialize (Hns _ Hc). congruence.
Qed.

(** X5. The tokens of two texts separated by a whitespace character are the
    tokens of the first followed by the tokens of the second.  The
    substitution table is taken to have no whitespace key. *)
Theorem tokenize_app_whitespace (a b : str) (c : char) :
  whitespace_fixed punct_table → isspace c = true →
  str_split (tokenize (a ++ c :: b))
  = str_split (tokenize a) ++ str_split (tokenize b).
Proof. apply split_tokenize_app. Qed.

(** X6. A tokenized phrase is a substring of a tokenized text exactly when the
    tokens of the phrase are a run of consecutive tokens of the text; the
    phrase without tokens is found exactly in the text without tokens. *)
Theorem substring_iff_token_run (l s : str) :
  let B := str_split (tokenize l) in
  let Q := str_split (tokenize s) in
  substring (tokenize l) (tokenize s)
  ↔ (B ≠ [] ∧ ∃ A C, Q = A ++ B ++ C) ∨ (B = [] ∧ Q = []).
Proof.
  cbv zeta.
  pose proof (tokenize_of_tokens l) as Hl.
  pose proof (tokenize_of_tokens s) as Hs.
  assert (Forall word (str_split (tokenize l))) as HB by apply split_words.
  assert (Forall word (str_split (tokenize s))) as HQ by apply split_words.
  remember (str_split (tokenize l)) as B eqn:EB.
  remember (str_split (tokenize s)) as Q eqn:EQ.
  rewrite Hl, Hs. clear Hl Hs EB EQ. split.
  - intros Hsub. destruct B as [|w B].
    + right. split; [done |]. destruct Q as [|q Q]; [done |].
      exfalso. revert Hsub. by apply no_double_space_join; [apply words_chunks |].
    + left. split; [done |]. by apply padded_join_substring_inv.
  - intros [[Hne (A & C & ->)] | [-> ->]].
    + by apply padded_join_infix.
    + by exists [], [].
Qed.

End TokenizerFacts.

(** ** More about counting and loading *)

Section MatcherFacts.

Context (punct_table : gmap char str).
Context (unicode_punct_symbol_han : char → bool).
Context (unicode_lower : str → str).

#[local] Abbreviation rup := (replace_unicode_punct punct_table).
#[local] Abbreviation tokenize := (_tokenize punct_table unicode_punct_symbol_han).
#[local] Abbreviation lower := (str_lower unicode_lower).
#[local] Abbreviation toxicity_count :=
  (toxicity_count punct_table unicode_punct_symbol_han unicode_lower).
#[local] Abbreviation load_paths :=
  (load_paths punct_table unicode_punct_symbol_han unicode_lower).
#[local] Abbreviation add_line :=
  (add_line punct_table unicode_punct_symbol_han unicode_lower).
#[local] Abbreviation ToxicityList_init :=
  (ToxicityList_init punct_table unicode_punct_symbol_han unicode_lower).
#[local] Abbreviation line_phrase :=
  (line_phrase punct_table unicode_punct_symbol_han unicode_lower).

Lemma count_subseteq (A B : ToxicityList) (s : str) :
  toxicity A ⊆ toxicity B → toxicity_count A s ≤ toxicity_count B s.
Proof.
  intros Hsub. unfold toxicity_count. rewrite !count_in_size.
  apply Nat.max_le_compat; apply subseteq_size; intros t;
    rewrite !elem_of_filter; intros [? ?]; split; auto.
Qed.

Lemma count_le_size (self : ToxicityList) (s : str) :
  toxicity_count self s ≤ size (toxicity self).
Proof.
  unfold toxicity_count. rewrite !count_in_size.
  apply Nat.max_lub; apply subseteq_size; intros t Ht;
    by apply elem_of_filter in Ht as [_ ?].
Qed.

Lemma size_filter_pos (P : str → Prop) `{!∀ t, Decision (P t)} (X : gset str) :
  0 < size (filter P X) ↔ ∃ t, t ∈ X ∧ P t.
Proof.
  split.
  - intros Hpos. apply size_pos_elem_of in Hpos as [t Ht].
    apply elem_of_filter in Ht as [? ?]. by exists t.
  - intros (t & Hin & Ht).
    assert ({[ t ]} ⊆ filter P X) as Hsub.
    { intros x Hx. apply elem_of_singleton in Hx as ->.
      by apply elem_of_filter. }
    apply subseteq_size in Hsub. rewrite size_singleton in Hsub. lia.
Qed.

Lemma load_paths_succeeds (fs : gmap string entry) (paths : list string)
    (T : gset str) :
  (∃ S, load_paths fs T paths = inr S)
  ↔ ∀ p, p ∈ paths → ∃ lines, fs !! p = Some (RegularFile lines).
Proof.
  revert T. induction paths as [|p paths IH]; intros T; simpl.
  - split; [intros _ p Hp; by apply elem_of_nil in Hp | by eexists].
  - unfold open at 1. split.
    + intros [S HS] q Hq. destruct (fs !! p) as [[lines | | |]|] eqn:E;
        try discriminate HS; [|by destruct (has_nul p)].
      apply elem_of_cons in Hq as [-> | Hq]; [by eexists |].
      simpl in HS. eapply IH; [by eexists | done].
    + intros Hall. destruct (Hall p) as [lines ->]; [by left |].
      simpl. apply IH. intros q Hq. apply Hall. by right.
Qed.

(** X7. A list built from no file has an empty set and counts 0 on every
    query. *)
Theorem no_paths_counts_zero (fs : gmap string entry) :
  ∃ self, ToxicityList_init fs [] = inr self
          ∧ toxicity self = ∅
          ∧ ∀ s, toxicity_count self s = 0.
Proof.
  exists {| toxicity := ∅ |}. split; [done |]. split; [done |].
  intros s. pose proof (count_le_size {| toxicity := ∅ |} s) as Hle.
  revert Hle. change (size (toxicity {| toxicity := ∅ |})) with 0. lia.
Qed.

(** X8. The count is positive exactly when a stored phrase is a substring of
    the tokenized query or of its lowercased form. *)
Theorem toxicity_count_positive_iff (self : ToxicityList) (s : str) :
  0 < toxicity_count self s
  ↔ ∃ t, t ∈ toxicity self
         ∧ (substring t (tokenize (rup s))
            ∨ substring t (lower (tokenize (rup s)))).
Proof.
  unfold toxicity_count. rewrite !count_in_size.
  rewrite Nat.max_lt_iff, !size_filter_pos. split.
  - intros [(t & Hin & Ht) | (t & Hin & Ht)]; exists t; auto.
  - intros (t & Hin & [Ht | Ht]); [left | right]; by exists t.
Qed.

(** X9. The count against the union of two sets is at most the sum of the
    counts against each. *)
Theorem toxicity_count_union_bound (A B : gset str) (s : str) :
  toxicity_count {| toxicity := A ∪ B |} s
  ≤ toxicity_count {| toxicity := A |} s + toxicity_count {| toxicity := B |} s.
Proof.
  unfold toxicity_count. rewrite !count_in_size. simpl.
  rewrite !filter_union_L by apply _.
  pose proof (size_union_le
    (filter (λ t, substring t (tokenize (rup s))) A)
    (filter (λ t, substring t (tokenize (rup s))) B)).
  pose proof (size_union_le
    (filter (λ t, substring t (lower (tokenize (rup s)))) A)
    (filter (λ t, substring t (lower (tokenize (rup s)))) B)).
  lia.
Qed.

(** X10. Whitespace around the query does not change the count.  The
    substitution table is taken to have no whitespace key. *)
Theorem toxicity_count_outer_whitespace (self : ToxicityList) (l s r : str) :
  whitespace_fixed punct_table → all_space l → all_space r →
  toxicity_count self (l ++ s ++ r) = toxicity_count self s.
Proof.
  intros Hfix Hl Hr. unfold toxicity_count.
  rewrite !rup_app. rewrite (rup_all_space _ l), (rup_all_space _ r) by done.
  by rewrite tokenize_trim.
Qed.

(** X11. A phrase that was loaded is found wherever it stands between two
    whitespace characters of the query, if the phrase has a token at all.
    The substitution table is taken to replace no character of its own
    replacement strings and no whitespace character. *)
Theorem loaded_phrase_found
    (fs : gmap string entry) (paths : list string) (self : ToxicityList)
    (p : string) (lines : list str) (l a b : str) (c d : char) :
  values_fixed punct_table → whitespace_fixed punct_table →
  ToxicityList_init fs paths = inr self →
  p ∈ paths → open fs p = inr lines → l ∈ lines →
  tokenize l ≠ [space; space] →
  isspace c = true → isspace d = true →
  1 ≤ toxicity_count self (a ++ c :: l ++ d :: b).
Proof.
  intros Hv Hw Hinit Hp Hopen Hl Hne Hc Hd.
  assert (tokenize (str_strip l) ∈ toxicity self) as Hin.
  { rewrite (init_elem _ _ _ _ _ _ _ Hinit). exists p, lines, l.
    repeat split; try done. by left. }
  rewrite tokenize_strip in Hin.
  assert (substring (tokenize l) (tokenize (rup (a ++ c :: l ++ d :: b))))
    as Hsub.
  { rewrite tokenize_after_rup by done.
    apply (token_run_substring _ _ _ _ (str_split (tokenize a))
             (str_split (tokenize b))); [done |].
    rewrite split_tokenize_app by done.
    by rewrite split_tokenize_app by done. }
  unfold toxicity_count. rewrite !count_in_size.
  etrans; [|apply Nat.le_max_l].
  apply (size_filter_pos (λ t, substring t _)). by exists (tokenize l).
Qed.

End MatcherFacts.

Section LoadingFacts.

Context (punct_table : gmap char str).
Context (unicode_punct_symbol_han : char → bool).
Context (unicode_lower : str → str).

#[local] Abbreviation tokenize := (_tokenize punct_table unicode_punct_symbol_han).
#[local] Abbreviation lower := (str_lower unicode_lower).
#[local] Abbreviation toxicity_count :=
  (toxicity_count punct_table unicode_punct_symbol_han unicode_lower).
#[local] Abbreviation load_paths :=
  (load_paths punct_table unicode_punct_symbol_han unicode_lower).
#[local] Abbreviation add_line :=
  (add_line punct_table unicode_punct_symbol_han unicode_lower).
#[local] Abbreviation ToxicityList_init :=
  (ToxicityList_init punct_table unicode_punct_symbol_han unicode_lower).

Lemma init_succeeds (fs : gmap string entry) (paths : list string) :
  (∃ self, ToxicityList_init fs paths = inr self)
  ↔ ∀ p, p ∈ paths → ∃ lines, fs !! p = Some (RegularFile lines).
Proof.
  rewrite <- (load_paths_succeeds punct_table unicode_punct_symbol_han
                unicode_lower fs paths ∅).
  unfold ToxicityList_init. split.
  - intros [self Hself]. destruct (load_paths fs ∅ paths) as [e | S];
      [discriminate Hself | by eexists].
  - intros [S ->]. by eexists.
Qed.

Lemma init_subseteq (fs : gmap string entry) (paths paths' : list string)
    (self self' : ToxicityList) :
  (∀ p, p ∈ paths → p ∈ paths') →
  ToxicityList_init fs paths = inr self →
  ToxicityList_init fs paths' = inr self' →
  toxicity self ⊆ toxicity self'.
Proof.
  intros Hsub Hinit Hinit' x.
  rewrite (init_elem _ _ _ _ _ _ x Hinit), (init_elem _ _ _ _ _ _ x Hinit').
  intros (p & lines & l & Hp & Hrest). exists p, lines, l. split; auto.
Qed.

Lemma add_lines_size (lines : list str) (T : gset str) :
  size (fold_left add_line lines T) ≤ size T + 2 * length lines.
Proof.
  revert T. induction lines as [|l lines IH]; intros T; simpl; [lia |].
  etrans; [apply IH |]. unfold add_line at 1.
  pose proof (size_union_le {[ lower (tokenize (str_strip l)) ]}
                ({[ tokenize (str_strip l) ]} ∪ T)) as H1.
  pose proof (size_union_le {[ tokenize (str_strip l) ]} T) as H2.
  rewrite !size_singleton in *. lia.
Qed.

(** X14. The set of a list that was built holds, for every line of every file,
    the tokenized trimmed line and its lowercased form, and nothing else. *)
Theorem phrase_set_members
    (fs : gmap string entry) (paths : list string) (self : ToxicityList)
    (x : str) :
  ToxicityList_init fs paths = inr self →
  x ∈ toxicity self
  ↔ ∃ p lines l, p ∈ paths ∧ open fs p = inr lines ∧ l ∈ lines
                 ∧ (x = tokenize (str_strip l)
                    ∨ x = lower (tokenize (str_strip l))).
Proof. apply init_elem. Qed.

(** X15. The list does not depend on the order of the paths or on a path given
    more than once. *)
Theorem construction_depends_on_path_set
    (fs : gmap string entry) (paths paths' : list string)
    (self : ToxicityList) :
  (∀ p, p ∈ paths ↔ p ∈ paths') →
  ToxicityList_init fs paths = inr self →
  ToxicityList_init fs paths' = inr self.
Proof.
  intros Hsame Hinit.
  assert (∃ self', ToxicityList_init fs paths' = inr self') as [self' Hinit'].
  { apply init_succeeds. intros p Hp. apply Hsame in Hp.
    revert p Hp. apply init_succeeds. by exists self. }
  rewrite Hinit'. f_equal.
  assert (toxicity self' = toxicity self) as Heq.
  { apply set_eq. intros x. split.
    - apply (init_subseteq fs paths' paths); [intros p; apply Hsame | done..].
    - apply (init_subseteq fs paths paths'); [intros p; apply Hsame | done..]. }
  destruct self, self'. simpl in Heq. by rewrite Heq.
Qed.

(** X16. Loading more files never lowers a count. *)
Theorem more_paths_never_lower_count
    (fs : gmap string entry) (paths paths' : list string)
    (self self' : ToxicityList) (s : str) :
  (∀ p, p ∈ paths → p ∈ paths') →
  ToxicityList_init fs paths = inr self →
  ToxicityList_init fs paths' = inr self' →
  toxicity_count self s ≤ toxicity_count self' s.
Proof.
  intros Hsub Hinit Hinit'. apply count_subseteq.
  by apply (init_subseteq fs paths paths').
Qed.

(** X17. Every line adds at most two phrases: the set has at most twice as many
    members as the files have lines. *)
Theorem phrase_set_size_bound
    (fs : gmap string entry) (paths : list string) (self : ToxicityList) :
  ToxicityList_init fs paths = inr self →
  size (toxicity self)
  ≤ 2 * sum_list ((λ p, match open fs p with
                        | inr lines => length lines
                        | inl _ => 0
                        end) <$> paths).
Proof.
  unfold ToxicityList_init. intros Hinit.
  destruct (load_paths fs ∅ paths) as [e | S] eqn:Hload; [discriminate Hinit |].
  injection Hinit as <-. simpl.
  assert (∀ T, load_paths fs T paths = inr S →
            size S ≤ size T + 2 * sum_list ((λ p, match open fs p with
                                                  | inr lines => length lines
                                                  | inl _ => 0
                                                  end) <$> paths)) as Hgen.
  { clear Hload. induction paths as [|p paths IH]; intros T HT; simpl in HT.
    - injection HT as <-. simpl. lia.
    - rewrite fmap_cons. simpl.
      destruct (open fs p) as [e | lines]; [discriminate HT |].
      simpl in HT. apply IH in HT.
      pose proof (add_lines_size lines T). lia. }
  apply Hgen in Hload. rewrite size_empty in Hload. lia.
Qed.

End LoadingFacts.

(** ** ASCII letter case *)

Lemma ascii_lower_cases (c : char) :
  (ascii_lower c = c ∧ ¬ (0x41 ≤ c ≤ 0x5A)%N)
  ∨ (ascii_lower c = (c + 0x20)%N ∧ (0x41 ≤ c ≤ 0x5A)%N).
Proof.
  unfold ascii_lower.
  destruct (0x41 <=? c)%N eqn:E1; destruct (c <=? 0x5A)%N eqn:E2; simpl;
    try apply N.leb_le in E1; try apply N.leb_le in E2;
    try apply N.leb_gt in E1; try apply N.leb_gt in E2;
    [right | left ..]; split; try done; lia.
Qed.

Lemma isspace_letter (c : char) : (0x41 ≤ c ≤ 0x7A)%N → isspace c = false.
Proof.
  intros Hc. unfold isspace.
  rewrite !orb_false_iff, !andb_false_iff, !N.leb_gt, !N.eqb_neq. lia.
Qed.

Lemma punct_letter (c : char) :
  (0x41 ≤ c ≤ 0x5A)%N ∨ (0x61 ≤ c ≤ 0x7A)%N → ascii_punct_or_symbol c = false.
Proof.
  intros Hc. unfold ascii_punct_or_symbol.
  rewrite !orb_false_iff, !andb_false_iff, !N.leb_gt. lia.
Qed.

Lemma isspace_ascii_lower (c : char) : isspace (ascii_lower c) = isspace c.
Proof.
  destruct (ascii_lower_cases c) as [[-> _] | [-> Hc]]; [done |].
  rewrite !isspace_letter by lia. done.
Qed.

Lemma is_ascii_ascii_lower (c : char) : is_ascii (ascii_lower c) = is_ascii c.
Proof.
  destruct (ascii_lower_cases c) as [[-> _] | [-> Hc]]; [done |].
  unfold is_ascii. transitivity true; [| symmetry]; apply N.ltb_lt; lia.
Qed.

Lemma split_match_ascii_lower (cls : char → bool) (c : char) :
  split_match cls (ascii_lower c) = split_match cls c.
Proof.
  destruct (ascii_lower_cases c) as [[-> _] | [Heq Hc]]; [done |].
  unfold split_match. rewrite is_ascii_ascii_lower.
  assert (is_ascii c = true) as -> by (apply N.ltb_lt; lia).
  rewrite Heq. rewrite (punct_letter c), (punct_letter (c + 0x20)) by lia.
  done.
Qed.

Lemma lstrip_ascii_lower (s : str) :
  str_lstrip (map ascii_lower s) = map ascii_lower (str_lstrip s).
Proof.
  induction s as [|c s IH]; [done |]. simpl. rewrite isspace_ascii_lower.
  by destruct (isspace c).
Qed.

Lemma strip_ascii_lower (s : str) :
  str_strip (map ascii_lower s) = map ascii_lower (str_strip s).
Proof.
  unfold str_strip, str_rstrip.
  by rewrite lstrip_ascii_lower, <- map_rev, lstrip_ascii_lower, map_rev.
Qed.

Lemma split_ascii_lower (s : str) :
  str_split (map ascii_lower s) = map (map ascii_lower) (str_split s).
Proof.
  induction s as [|c s IH]; [done |].
  change (map ascii_lower (c :: s)) with (ascii_lower c :: map ascii_lower s).
  simpl str_split. rewrite isspace_ascii_lower.
  destruct (isspace c); [exact IH |].
  destruct s as [|d s]; [done |].
  change (map ascii_lower (d :: s)) with (ascii_lower d :: map ascii_lower s) in *.
  cbv iota beta. rewrite isspace_ascii_lower.
  destruct (isspace d); [by rewrite IH |].
  rewrite IH. by destruct (str_split (d :: s)).
Qed.

Lemma join_ascii_lower (ws : list str) :
  str_join [space] (map (map ascii_lower) ws)
  = map ascii_lower (str_join [space] ws).
Proof.
  induction ws as [|w ws IH]; [done |].
  destruct ws as [|w2 ws]; [done |].
  change (map (map ascii_lower) (w :: w2 :: ws))
    with (map ascii_lower w :: map (map ascii_lower) (w2 :: ws)).
  rewrite !join_cons by done. rewrite IH, map_app. done.
Qed.

Lemma split_sub_ascii_lower (cls : char → bool) (s : str) :
  split_sub cls (map ascii_lower s) = map ascii_lower (split_sub cls s).
Proof.
  induction s as [|c s IH]; [done |].
  unfold split_sub in *. simpl. rewrite IH, map_app.
  rewrite split_match_ascii_lower. by destruct (split_match cls c).
Qed.

Lemma rup_empty (s : str) : replace_unicode_punct ∅ s = s.
Proof.
  apply rup_not_keys, Forall_forall. intros c _. apply lookup_empty.
Qed.

Lemma tokenize_ascii_lower (cls : char → bool) (s : str) :
  _tokenize ∅ cls (map ascii_lower s) = map ascii_lower (_tokenize ∅ cls s).
Proof.
  rewrite !tokenize_unfold, !rup_empty.
  rewrite strip_ascii_lower, split_sub_ascii_lower, split_ascii_lower.
  rewrite join_ascii_lower, !map_app. done.
Qed.

Lemma strip_elem (s : str) (c : char) : c ∈ str_strip s → c ∈ s.
Proof.
  destruct (strip_decomp s) as (l & r & _ & _ & Hs). intros Hc.
  rewrite Hs. apply elem_of_app. right. apply elem_of_app. by left.
Qed.

Lemma tokenize_empty_table_elem (cls : char → bool) (s : str) (c : char) :
  c ∈ _tokenize ∅ cls s → c = space ∨ c ∈ s.
Proof.
  rewrite tokenize_unfold, rup_empty. intros Hc.
  apply elem_of_app in Hc as [Hc | Hc];
    [left; by apply list_elem_of_singleton in Hc |].
  apply elem_of_app in Hc as [Hc | Hc];
    [| left; by apply list_elem_of_singleton in Hc].
  apply join_elem in Hc as [-> | (w & Hw & Hc)]; [by left |].
  apply (split_elem _ _ _ Hw) in Hc.
  apply split_sub_elem in Hc as [-> | Hc]; [by left | right].
  by apply strip_elem.
Qed.

Section AsciiCase.

Context (punct_table : gmap char str).
Context (unicode_punct_symbol_han : char → bool).
Context (unicode_lower : str → str).

#[local] Abbreviation rup := (replace_unicode_punct punct_table).
#[local] Abbreviation tokenize := (_tokenize punct_table unicode_punct_symbol_han).
#[local] Abbreviation lower := (str_lower unicode_lower).
#[local] Abbreviation toxicity_count :=
  (toxicity_count punct_table unicode_punct_symbol_han unicode_lower).
#[local] Abbreviation ToxicityList_init :=
  (ToxicityList_init punct_table unicode_punct_symbol_han unicode_lower).

Lemma tokenize_of_ascii (s : str) :
  ascii_fixed punct_table → forallb is_ascii s = true →
  tokenize s = _tokenize ∅ unicode_punct_symbol_han s.
Proof.
  intros Hfix Hs. rewrite !tokenize_unfold, rup_empty.
  rewrite rup_ascii; [done | done |].
  apply forallb_forall. intros c Hc. rewrite forallb_forall in Hs.
  apply Hs. by apply list_elem_of_In, strip_elem, list_elem_of_In.
Qed.

Lemma lower_tokenize_of_ascii (s : str) :
  ascii_fixed punct_table → forallb is_ascii s = true →
  lower (tokenize s)
  = _tokenize ∅ unicode_punct_symbol_han (map ascii_lower s).
Proof.
  intros Hfix Hs. rewrite tokenize_of_ascii by done.
  rewrite tokenize_ascii_lower. unfold str_lower.
  assert (forallb is_ascii (_tokenize ∅ unicode_punct_symbol_han s) = true)
    as ->; [|done].
  apply forallb_forall. intros c Hc. apply list_elem_of_In in Hc.
  apply tokenize_empty_table_elem in Hc as [-> | Hc]; [done |].
  rewrite forallb_forall in Hs. by apply Hs, list_elem_of_In.
Qed.

(** X12. A phrase of ASCII characters that was loaded is found in every query of
    ASCII characters that differs from it only in the case of letters.  The
    substitution table is taken to have no ASCII key. *)
Theorem loaded_phrase_found_in_any_case
    (fs : gmap string entry) (paths : list string) (self : ToxicityList)
    (p : string) (lines : list str) (l q : str) :
  ascii_fixed punct_table →
  ToxicityList_init fs paths = inr self →
  p ∈ paths → open fs p = inr lines → l ∈ lines →
  forallb is_ascii l = true → forallb is_ascii q = true →
  map ascii_lower q = map ascii_lower l →
  1 ≤ toxicity_count self q.
Proof.
  intros Hfix Hinit Hp Hopen Hl Hal Haq Hcase.
  assert (lower (tokenize (str_strip l)) ∈ toxicity self) as Hin.
  { rewrite (init_elem _ _ _ _ _ _ _ Hinit). exists p, lines, l.
    repeat split; try done. by right. }
  rewrite tokenize_strip in Hin.
  rewrite lower_tokenize_of_ascii in Hin by done.
  unfold toxicity_count. rewrite !count_in_size.
  etrans; [|apply Nat.le_max_r].
  apply (size_filter_pos (λ t, substring t _)).
  exists (_tokenize ∅ unicode_punct_symbol_han (map ascii_lower l)).
  split; [done |]. rewrite rup_ascii by done.
  rewrite lower_tokenize_of_ascii by done. rewrite Hcase.
  exists [], []. simpl. by rewrite app_nil_r.
Qed.

End AsciiCase.

(** ** More about the filter *)

Section FilterFacts.

Context (punct_table : gmap char str).
Context (unicode_punct_symbol_han : char → bool).
Context (unicode_lower : str → str).
Context (format_lang : string → string → string).

#[local] Abbreviation toxicity_count :=
  (toxicity_count punct_table unicode_punct_symbol_han unicode_lower).
#[local] Abbreviation load_paths :=
  (load_paths punct_table unicode_punct_symbol_han unicode_lower).
#[local] Abbreviation ToxicityList_init :=
  (ToxicityList_init punct_table unicode_punct_symbol_han unicode_lower).
#[local] Abbreviation list_of_paths :=
  (list_of_paths punct_table unicode_punct_symbol_han unicode_lower).
#[local] Abbreviation ToxicityFilter_init :=
  (ToxicityFilter_init punct_table unicode_punct_symbol_han unicode_lower
     format_lang).
#[local] Abbreviation filter_line :=
  (filter_line punct_table unicode_punct_symbol_han unicode_lower).

(** X18. Loading a list of paths followed by another gives the union of the two
    sets. *)
Theorem construction_app_union
    (fs : gmap string entry) (paths1 paths2 : list string)
    (self1 self2 : ToxicityList) :
  ToxicityList_init fs paths1 = inr self1 →
  ToxicityList_init fs paths2 = inr self2 →
  ToxicityList_init fs (paths1 ++ paths2)
  = inr {| toxicity := toxicity self1 ∪ toxicity self2 |}.
Proof.
  intros H1 H2.
  assert (∃ self, ToxicityList_init fs (paths1 ++ paths2) = inr self)
    as [self Hself].
  { pose proof (init_succeeds punct_table unicode_punct_symbol_han
                  unicode_lower fs paths1) as [I1 _].
    pose proof (init_succeeds punct_table unicode_punct_symbol_han
                  unicode_lower fs paths2) as [I2 _].
    apply (init_succeeds punct_table unicode_punct_symbol_han unicode_lower).
    intros p Hp. apply elem_of_app in Hp as [Hp | Hp];
      [apply I1 | apply I2]; try done; by eexists. }
  rewrite Hself. f_equal.
  assert (toxicity self = toxicity self1 ∪ toxicity self2) as Heq.
  { apply set_eq. intros x. rewrite elem_of_union.
    rewrite (init_elem _ _ _ _ _ _ x Hself), (init_elem _ _ _ _ _ _ x H1),
      (init_elem _ _ _ _ _ _ x H2).
    split.
    - intros (p & lines & l & Hp & Hrest).
      apply elem_of_app in Hp as [Hp | Hp]; [left | right];
        by exists p, lines, l.
    - intros [(p & lines & l & Hp & Hrest) | (p & lines & l & Hp & Hrest)];
        exists p, lines, l; (split; [apply elem_of_app; auto | done]). }
  destruct self. simpl in Heq. by rewrite Heq.
Qed.

Lemma list_of_paths_raises (fs : gmap string entry) (paths : list string)
    (p : string) :
  p ∈ paths → (∃ e, open fs p = inl e) →
  ∃ e q, q ∈ paths ∧ open fs q = inl e ∧ list_of_paths fs paths = inl e.
Proof.
  intros Hp Herr.
  destruct (load_paths_raises punct_table unicode_punct_symbol_han
              unicode_lower fs paths ∅ p Hp Herr) as (e & q & Hq & He & Hload).
  exists e, q. split; [done |]. split; [done |].
  unfold list_of_paths, ToxicityList_init.
  destruct paths; [by apply elem_of_nil in Hp |]. by rewrite Hload.
Qed.

(** X19. With no auxiliary list and no phrase file for either language, the
    filter is built without a list on either side and [filter_line] leaves
    the counters as they are. *)
Theorem filter_without_lists
    (fs : gmap string entry) (twl_path_template : string)
    (max_tox max_diff : option Z) (src_lang : string)
    (tgt_lang : option string) :
  isfile fs (format_lang twl_path_template src_lang) = false →
  (∀ lang, tgt_lang = Some lang →
           isfile fs (format_lang twl_path_template lang) = false) →
  ∃ self,
    ToxicityFilter_init fs twl_path_template None max_tox max_diff
      src_lang tgt_lang = inr self
    ∧ src_toxicity_list self = None ∧ tgt_toxicity_list self = None
    ∧ ∀ line counts, filter_line self line counts = (false, counts).
Proof.
  intros Hsrc Htgt. unfold ToxicityFilter_init. rewrite Hsrc.
  destruct tgt_lang as [lang|]; [rewrite (Htgt lang eq_refl) |];
    (eexists; split; [reflexivity |]; split; [done |]; split; [done |];
     intros line counts; unfold filter_line; simpl; by destruct (tgt line)).
Qed.

(** X20. When the target language is the source language, both sides get the
    same list. *)
Theorem filter_same_language
    (fs : gmap string entry) (twl_path_template : string)
    (eng_porn_twl_path : option string) (max_tox max_diff : option Z)
    (lang : string) (self : ToxicityFilter) :
  ToxicityFilter_init fs twl_path_template eng_porn_twl_path max_tox max_diff
    lang (Some lang) = inr self →
  tgt_toxicity_list self = src_toxicity_list self.
Proof.
  unfold ToxicityFilter_init. intros Hinit.
  match type of Hinit with
  | (?m ≫= _) = _ => destruct m as [e | l]; [discriminate Hinit |]
  end.
  simpl in Hinit. by injection Hinit as <-.
Qed.

(** X21. An auxiliary path that cannot be opened or read makes the
    construction of the filter fail, whatever the language files are: no
    filter is returned, and the exception is the one raised for the source
    language's file or for the auxiliary path, of whatever class it is. *)
Theorem filter_unreadable_auxiliary_fails
    (fs : gmap string entry) (twl_path_template eng_porn_twl_path : string)
    (max_tox max_diff : option Z) (src_lang : string)
    (tgt_lang : option string) :
  (∃ e, open fs eng_porn_twl_path = inl e) →
  ∃ e q,
    open fs q = inl e
    ∧ (q = format_lang twl_path_template src_lang ∨ q = eng_porn_twl_path)
    ∧ ToxicityFilter_init fs twl_path_template (Some eng_porn_twl_path)
        max_tox max_diff src_lang tgt_lang = inl e.
Proof.
  intros Herr. unfold ToxicityFilter_init.
  match goal with
  | |- ∃ e q, _ ∧ _ ∧ (list_of_paths fs ?ps ≫= _) = _ =>
      destruct (list_of_paths_raises fs ps eng_porn_twl_path)
        as (e & q & Hq & He & ->);
        [apply elem_of_app; right; by left | done |]
  end.
  exists e, q. split; [done |]. split; [|done].
  apply elem_of_app in Hq as [Hq | Hq].
  - left. destruct (isfile fs (format_lang twl_path_template src_lang));
      [|by apply elem_of_nil in Hq].
    by apply list_elem_of_singleton in Hq.
  - right. by apply list_elem_of_singleton in Hq.
Qed.

(** X22. The source language's file is looked for with [isfile] only: a file
    that exists and cannot be read makes the construction fail with the
    error of [open]. *)
Theorem filter_unreadable_language_file_fails
    (fs : gmap string entry) (twl_path_template : string)
    (eng_porn_twl_path : option string) (max_tox max_diff : option Z)
    (src_lang : string) (tgt_lang : option string) :
  fs !! format_lang twl_path_template src_lang = Some UnreadableFile →
  ToxicityFilter_init fs twl_path_template eng_porn_twl_path max_tox max_diff
    src_lang tgt_lang = inl PermissionError.
Proof.
  intros Hfile. unfold ToxicityFilter_init, isfile. rewrite Hfile.
  destruct eng_porn_twl_path as [p|]; simpl;
    unfold ToxicityList_init; simpl; unfold open; by rewrite Hfile.
Qed.

(** X23. A side has no list exactly when there is neither a phrase file for its
    language nor an auxiliary list. *)
Theorem filter_list_absent_iff
    (fs : gmap string entry) (twl_path_template : string)
    (eng_porn_twl_path : option string) (max_tox max_diff : option Z)
    (src_lang : string) (tgt_lang : option string) (self : ToxicityFilter) :
  ToxicityFilter_init fs twl_path_template eng_porn_twl_path max_tox max_diff
    src_lang tgt_lang = inr self →
  (src_toxicity_list self = None
   ↔ isfile fs (format_lang twl_path_template src_lang) = false
     ∧ eng_porn_twl_path = None)
  ∧ (tgt_toxicity_list self = None
     ↔ (∀ lang, tgt_lang = Some lang →
                isfile fs (format_lang twl_path_template lang) = false)
       ∧ eng_porn_twl_path = None).
Proof.
  unfold ToxicityFilter_init. intros Hinit.
  assert (∀ paths l, list_of_paths fs paths = inr l →
            (l = None ↔ paths = [])) as Hlist.
  { intros paths l Hl. unfold list_of_paths in Hl. destruct paths.
    - by injection Hl as <-.
    - destruct (ToxicityList_init fs (s :: paths)); [discriminate Hl |].
      simpl in Hl. by injection Hl as <-. }
  match type of Hinit with
  | (?m ≫= _) = _ => destruct m as [e | sl] eqn:Hs; [discriminate Hinit |]
  end.
  simpl in Hinit.
  match type of Hinit with
  | (?m ≫= _) = _ => destruct m as [e | tl] eqn:Ht; [discriminate Hinit |]
  end.
  simpl in Hinit. injection Hinit as <-. simpl.
  apply Hlist in Hs, Ht. rewrite Hs, Ht. clear.
  split.
  - destruct (isfile fs (format_lang twl_path_template src_lang)),
      eng_porn_twl_path; simpl; split; try done; by intros [? ?].
  - destruct tgt_lang as [lang|].
    + destruct (isfile fs (format_lang twl_path_template lang)) eqn:E,
        eng_porn_twl_path; simpl; split; try done.
      * by intros [? ?].
      * intros [H _]. specialize (H lang eq_refl). congruence.
      * by intros [? ?].
      * intros _. split; [|done]. by intros ? [= <-].
    + destruct eng_porn_twl_path; simpl; split; try done; by intros [? ?].
Qed.

(** X24. Without a threshold no line is counted or flagged. *)
Theorem filter_line_no_threshold
    (self : ToxicityFilter) (line : DatasetLine) (counts : FilteringCounts) :
  max_toxicity self = None → filter_line self line counts = (false, counts).
Proof.
  intros Hnone. unfold filter_line. rewrite Hnone.
  destruct (src_toxicity_list self), (tgt line), (tgt_toxicity_list self); done.
Qed.

(** X25. One line raises the counter by at most two and never lowers it; when the
    source side is flagged the counter has gone up by at least one. *)
Theorem filter_line_counter_bounds
    (self : ToxicityFilter) (line : DatasetLine) (counts : FilteringCounts) :
  let result := filter_line self line counts in
  (counts_max_toxicity counts + (if result.1 then 1 else 0)
   ≤ counts_max_toxicity result.2
   ≤ counts_max_toxicity counts + 2)%Z.
Proof.
  cbv zeta. unfold filter_line.
  destruct (src_toxicity_list self), (max_toxicity self), (tgt line),
    (tgt_toxicity_list self); simpl; repeat case_match; simpl in *;
    simplify_eq; simpl; lia.
Qed.

(** X26. The source side is flagged exactly when there is a source list and a
    threshold and the count of the source text is strictly above it. *)
Theorem filter_line_source_flag_iff
    (self : ToxicityFilter) (line : DatasetLine) (counts : FilteringCounts) :
  (filter_line self line counts).1 = true
  ↔ ∃ l m, src_toxicity_list self = Some l ∧ max_toxicity self = Some m
           ∧ (m < Z.of_nat (toxicity_count l (src line)))%Z.
Proof.
  unfold filter_line.
  destruct (src_toxicity_list self) as [l|], (max_toxicity self) as [m|],
    (tgt line) as [t|], (tgt_toxicity_list self) as [tl|]; simpl;
    repeat match goal with
    | |- context [(?a >? ?b)%Z] =>
        let E := fresh "E" in
        destruct (a >? b)%Z eqn:E;
          [apply Z.gtb_lt in E | rewrite Z.gtb_ltb in E; apply Z.ltb_ge in E]
    end; simpl;
    (split;
     [ intros H; try discriminate H; eexists _, _;
       repeat split; try reflexivity; lia
     | intros (l' & m' & Hl & Hm & Hlt); simplify_eq; try lia; done ]).
Qed.

(** X27. A threshold that is not below the size of either list flags nothing. *)
Theorem filter_line_threshold_at_least_sizes
    (self : ToxicityFilter) (m : Z) (line : DatasetLine)
    (counts : FilteringCounts) :
  max_toxicity self = Some m →
  (∀ l, src_toxicity_list self = Some l → (Z.of_nat (size (toxicity l)) ≤ m)%Z) →
  (∀ l, tgt_toxicity_list self = Some l → (Z.of_nat (size (toxicity l)) ≤ m)%Z) →
  filter_line self line counts = (false, counts).
Proof.
  intros Hm Hsrc Htgt. unfold filter_line. rewrite Hm.
  assert (∀ l s, (Z.of_nat (size (toxicity l)) ≤ m)%Z →
            (Z.of_nat (toxicity_count l s) >? m)%Z = false) as Hle.
  { intros l s Hl.
    pose proof (count_le_size punct_table unicode_punct_symbol_han
                  unicode_lower l s).
    rewrite Z.gtb_ltb. apply Z.ltb_ge. lia. }
  destruct (src_toxicity_list self) as [sl|];
    [rewrite (Hle sl) by by apply Hsrc |];
    (destruct (tgt line) as [t|]; [|done]);
    (destruct (tgt_toxicity_list self) as [tl|]; [|done]);
    by rewrite (Hle tl) by by apply Htgt.
Qed.

End FilterFacts.

(** ** The further facts at work on concrete inputs *)

#[local] Abbreviation s_tokenize := (_tokenize sample_table sample_class).
#[local] Abbreviation s_count :=
  (toxicity_count sample_table sample_class sample_lower).
#[local] Abbreviation s_init :=
  (ToxicityList_init sample_table sample_class sample_lower).
#[local] Abbreviation s_filter_init :=
  (ToxicityFilter_init sample_table sample_class sample_lower sample_format).
#[local] Abbreviation s_filter_line :=
  (filter_line sample_table sample_class sample_lower).

Lemma tokenize_outer_whitespace_witness :
  s_tokenize ([space; 0x09%N] ++ u "a.b" ++ [newline]) = s_tokenize (u "a.b").
Proof.
  apply (tokenize_outer_whitespace sample_table sample_class
           [space; 0x09%N] (u "a.b") [newline]);
    repeat constructor.
Defined.

Lemma tokenize_whitespace_is_space_witness : space = space.
Proof.
  apply (tokenize_whitespace_is_space sample_table sample_class
           (u "a" ++ [0x09%N] ++ u "b") space).
  - apply (bool_decide_unpack _). vm_compute. reflexivity.
  - reflexivity.
Defined.

Lemma tokenize_app_whitespace_witness :
  str_split (s_tokenize (u "it's" ++ newline :: fancy_text))
  = str_split (s_tokenize (u "it's")) ++ str_split (s_tokenize fancy_text).
Proof.
  apply (tokenize_app_whitespace sample_table sample_class
           (u "it's") fancy_text newline).
  - apply sample_whitespace_fixed.
  - reflexivity.
Defined.

Lemma toxicity_count_outer_whitespace_witness :
  s_count sample_list ([newline] ++ u "Damn slur1" ++ [space; space])
  = s_count sample_list (u "Damn slur1").
Proof.
  apply (toxicity_count_outer_whitespace sample_table sample_class
           sample_lower sample_list [newline] (u "Damn slur1")
           [space; space]).
  - apply sample_whitespace_fixed.
  - repeat constructor.
  - repeat constructor.
Defined.

Lemma loaded_phrase_found_witness :
  1 ≤ s_count sample_list
        (u "you" ++ space :: (u "slur1" ++ [newline]) ++ space :: u "now").
Proof.
  apply (loaded_phrase_found sample_table sample_class sample_lower
           sample_fs ["toxic.txt"%string] sample_list "toxic.txt"%string
           [u "slur1" ++ [newline]; [newline]; u "Damn" ++ [newline]]
           (u "slur1" ++ [newline]) (u "you") (u "now") space space).
  - apply sample_values_fixed.
  - apply sample_whitespace_fixed.
  - vm_compute. reflexivity.
  - apply (bool_decide_unpack _). vm_compute. reflexivity.
  - vm_compute. reflexivity.
  - apply (bool_decide_unpack _). vm_compute. reflexivity.
  - vm_compute. discriminate.
  - reflexivity.
  - reflexivity.
Defined.

Lemma loaded_phrase_found_in_any_case_witness :
  1 ≤ s_count sample_list (u "dAMN" ++ [newline]).
Proof.
  apply (loaded_phrase_found_in_any_case sample_table sample_class
           sample_lower sample_fs ["toxic.txt"%string] sample_list
           "toxic.txt"%string
           [u "slur1" ++ [newline]; [newline]; u "Damn" ++ [newline]]
           (u "Damn" ++ [newline]) (u "dAMN" ++ [newline])).
  - apply sample_ascii_fixed.
  - vm_compute. reflexivity.
  - apply (bool_decide_unpack _). vm_compute. reflexivity.
  - vm_compute. reflexivity.
  - apply (bool_decide_unpack _). vm_compute. reflexivity.
  - reflexivity.
  - reflexivity.
  - reflexivity.
Defined.

Lemma phrase_set_members_witness :
  u " damn " ∈ toxicity sample_list
  ↔ ∃ p lines l,
      p ∈ ["toxic.txt"%string] ∧ open sample_fs p = inr lines ∧ l ∈ lines
      ∧ (u " damn " = s_tokenize (str_strip l)
         ∨ u " damn " = str_lower sample_lower (s_tokenize (str_strip l))).
Proof.
  apply (phrase_set_members sample_table sample_class sample_lower
           sample_fs ["toxic.txt"%string] sample_list (u " damn ")).
  vm_compute. reflexivity.
Defined.

Lemma construction_depends_on_path_set_witness :
  s_init sample_fs2 ["aux.txt"%string; "twl-eng"%string; "aux.txt"%string]
  = inr sample_list2.
Proof.
  apply (construction_depends_on_path_set sample_table sample_class
           sample_lower sample_fs2 ["twl-eng"%string; "aux.txt"%string]
           ["aux.txt"%string; "twl-eng"%string; "aux.txt"%string]
           sample_list2).
  - intros p. rewrite !elem_of_cons, !elem_of_nil. tauto.
  - vm_compute. reflexivity.
Defined.

Lemma more_paths_never_lower_count_witness :
  s_count {| toxicity := {[ u " slur1 " ]} |} (u "Damn slur1")
  ≤ s_count sample_list2 (u "Damn slur1").
Proof.
  apply (more_paths_never_lower_count sample_table sample_class sample_lower
           sample_fs2 ["twl-eng"%string] ["twl-eng"%string; "aux.txt"%string]
           {| toxicity := {[ u " slur1 " ]} |} sample_list2 (u "Damn slur1")).
  - intros p. rewrite !elem_of_cons, !elem_of_nil. tauto.
  - vm_compute. reflexivity.
  - vm_compute. reflexivity.
Defined.

Lemma phrase_set_size_bound_witness :
  size (toxicity sample_list)
  ≤ 2 * sum_list ((λ p, match open sample_fs p with
                        | inr lines => length lines
                        | inl _ => 0
                        end) <$> ["toxic.txt"%string]).
Proof.
  apply (phrase_set_size_bound sample_table sample_class sample_lower
           sample_fs ["toxic.txt"%string] sample_list).
  vm_compute. reflexivity.
Defined.

Lemma construction_app_union_witness :
  s_init sample_fs2 (["twl-eng"%string] ++ ["aux.txt"%string])
  = inr {| toxicity :=
             toxicity {| toxicity := {[ u " slur1 " ]} |}
             ∪ toxicity {| toxicity := {[ u " Damn " ]} ∪ {[ u " damn " ]} |} |}.
Proof.
  apply (construction_app_union sample_table sample_class sample_lower
           sample_fs2 ["twl-eng"%string] ["aux.txt"%string]
           {| toxicity := {[ u " slur1 " ]} |}
           {| toxicity := {[ u " Damn " ]} ∪ {[ u " damn " ]} |}).
  - vm_compute. reflexivity.
  - vm_compute. reflexivity.
Defined.

Lemma filter_without_lists_witness :
  ∃ self,
    s_filter_init sample_fs "twl-"%string None (Some 0%Z) None
      "eng"%string (Some "fra"%string) = inr self
    ∧ src_toxicity_list self = None ∧ tgt_toxicity_list self = None
    ∧ ∀ line counts, s_filter_line self line counts = (false, counts).
Proof.
  apply (filter_without_lists sample_table sample_class sample_lower
           sample_format sample_fs "twl-"%string (Some 0%Z) None
           "eng"%string (Some "fra"%string)).
  - vm_compute. reflexivity.
  - intros lang [= <-]. vm_compute. reflexivity.
Defined.

Lemma filter_same_language_witness :
  tgt_toxicity_list sample_filter2 = src_toxicity_list sample_filter2.
Proof.
  apply (filter_same_language sample_table sample_class sample_lower
           sample_format sample_fs2 "twl-"%string (Some "aux.txt"%string)
           (Some 1%Z) (Some 2%Z) "eng"%string sample_filter2).
  vm_compute. reflexivity.
Defined.

Lemma filter_unreadable_auxiliary_fails_witness :
  ∃ e q,
    open sample_fs2 q = inl e
    ∧ (q = sample_format "twl-" "eng" ∨ q = "twl-fra"%string)
    ∧ s_filter_init sample_fs2 "twl-"%string (Some "twl-fra"%string)
        (Some 1%Z) None "eng"%string None = inl e.
Proof.
  apply (filter_unreadable_auxiliary_fails sample_table sample_class
           sample_lower sample_format sample_fs2 "twl-"%string
           "twl-fra"%string (Some 1%Z) None "eng"%string None).
  exists PermissionError. vm_compute. reflexivity.
Defined.

Lemma filter_unreadable_language_file_fails_witness :
  s_filter_init sample_fs2 "twl-"%string (Some "aux.txt"%string)
    (Some 1%Z) None "fra"%string (Some "eng"%string) = inl PermissionError.
Proof.
  apply (filter_unreadable_language_file_fails sample_table sample_class
           sample_lower sample_format sample_fs2 "twl-"%string
           (Some "aux.txt"%string) (Some 1%Z) None "fra"%string
           (Some "eng"%string)).
  vm_compute. reflexivity.
Defined.

Lemma filter_list_absent_iff_witness :
  (src_toxicity_list sample_filter2 = None
   ↔ isfile sample_fs2 (sample_format "twl-" "eng") = false
     ∧ Some "aux.txt"%string = None)
  ∧ (tgt_toxicity_list sample_filter2 = None
     ↔ (∀ lang, Some "eng"%string = Some lang →
                isfile sample_fs2 (sample_format "twl-" lang) = false)
       ∧ Some "aux.txt"%string = None).
Proof.
  apply (filter_list_absent_iff sample_table sample_class sample_lower
           sample_format sample_fs2 "twl-"%string (Some "aux.txt"%string)
           (Some 1%Z) (Some 2%Z) "eng"%string (Some "eng"%string)
           sample_filter2).
  vm_compute. reflexivity.
Defined.

Lemma filter_line_no_threshold_witness :
  s_filter_line
    {| max_toxicity := None; max_toxicity_difference := None;
       tgt_toxicity_list := Some sample_list;
       src_toxicity_list := Some sample_list |}
    {| src := u "Damn slur1"; tgt := Some (u "slur1") |}
    {| counts_max_toxicity := 7 |}
  = (false, {| counts_max_toxicity := 7 |}).
Proof.
  apply (filter_line_no_threshold sample_table sample_class sample_lower
           {| max_toxicity := None; max_toxicity_difference := None;
              tgt_toxicity_list := Some sample_list;
              src_toxicity_list := Some sample_list |}
           {| src := u "Damn slur1"; tgt := Some (u "slur1") |}
           {| counts_max_toxicity := 7 |}).
  reflexivity.
Defined.

Lemma filter_line_threshold_at_least_sizes_witness :
  s_filter_line
    {| max_toxicity := Some 4%Z; max_toxicity_difference := None;
       tgt_toxicity_list := Some sample_list;
       src_toxicity_list := Some sample_list |}
    {| src := u "Damn slur1"; tgt := Some (u "slur1") |}
    {| counts_max_toxicity := 7 |}
  = (false, {| counts_max_toxicity := 7 |}).
Proof.
  apply (filter_line_threshold_at_least_sizes sample_table sample_class
           sample_lower
           {| max_toxicity := Some 4%Z; max_toxicity_difference := None;
              tgt_toxicity_list := Some sample_list;
              src_toxicity_list := Some sample_list |}
           4%Z
           {| src := u "Damn slur1"; tgt := Some (u "slur1") |}
           {| counts_max_toxicity := 7 |}).
  - reflexivity.
  - intros l [= <-]. vm_compute. discriminate.
  - intros l [= <-]. vm_compute. discriminate.
Defined.

Example filter_line_counts_both_sides :
  s_filter_line sample_filter2
    {| src := u "Damn, slur1!"; tgt := Some (u "slur1 damn") |}
    {| counts_max_toxicity := 0 |}
  = (true, {| counts_max_toxicity := 2 |}).
Proof. by vm_compute. Qed.

Example filter_line_at_threshold_not_flagged :
  s_filter_line sample_filter2
    {| src := u "only slur1 here"; tgt := None |}
    {| counts_max_toxicity := 0 |}
  = (false, {| counts_max_toxicity := 0 |}).
Proof. by vm_compute. Qed.
